(** * EuljiroWorship overlay clients: a shallow embedding of the JavaScript

    The development follows the browser-side sources of the repository:

    - [JsString]   : JavaScript strings as sequences of UTF-16 code units,
                     with [trim], [split(/\s+/)] and [join(" ")];
    - [Lyrics]     : js/lyrics_utils_hall.js ([segmentLyrics], [splitBalanced]);
    - [TextFit]    : js/autoshrink_hall.js and js/autoshrink_obs.js;
    - [Video]      : the seek actions of [renderVideo] (js/render_hall.js);
    - [Dispatcher] : js/main_hall.js and js/main_obs.js;
    - [Transport]  : js/ws_hall.js and js/ws_obs.js.

    The definitions come first; the properties of each part are proved in
    the modules [LyricsFacts], [TextFitFacts], [VideoFacts],
    [DispatcherFacts] and [TransportFacts] that follow them. *)

From Stdlib Require Import List Bool Arith ZArith NArith Lia String Ascii.
From Stdlib Require Import QArith Qminmax Qround Lqa DecimalString.
From Equations Require Import Equations.
Import ListNotations.

(* ===================================================================== *)
(** * JavaScript strings *)
(* ===================================================================== *)

Module JsString.

(** A JavaScript string is a finite sequence of UTF-16 code units; [length],
    [===], [trim] and regular expressions all work on code units. *)
Definition code_unit := N.
Definition jsstring := list code_unit.

Local Open Scope N_scope.

(** ** Literals

    String literals of the sources are written as Rocq strings (UTF-8 bytes)
    and decoded to code units by [js]. *)

Definition cont (a : ascii) : N := N.land (N_of_ascii a) 63.

Definition surrogates (cp : N) : jsstring :=
  let v := cp - 65536 in
  [55296 + N.shiftr v 10; 56320 + N.land v 1023].

Fixpoint js (s : string) : jsstring :=
  match s with
  | EmptyString => []
  | String a s1 =>
      let b := N_of_ascii a in
      if b <? 128 then b :: js s1
      else match s1 with
      | EmptyString => [b]
      | String a2 s2 =>
          if b <? 224 then
            (N.shiftl (N.land b 31) 6 + cont a2) :: js s2
          else match s2 with
          | EmptyString => [b]
          | String a3 s3 =>
              if b <? 240 then
                (N.shiftl (N.land b 15) 12 + N.shiftl (cont a2) 6 + cont a3)
                  :: js s3
              else match s3 with
              | EmptyString => [b]
              | String a4 s4 =>
                  surrogates (N.shiftl (N.land b 7) 18
                              + N.shiftl (cont a2) 12
                              + N.shiftl (cont a3) 6 + cont a4) ++ js s4
              end
          end
      end
  end.

(** ** Strict equality on strings *)

Fixpoint str_eqb (s t : jsstring) : bool :=
  match s, t with
  | [], [] => true
  | c :: s', d :: t' => (c =? d) && str_eqb s' t'
  | _, _ => false
  end.

(** [s === ""]. *)
Definition is_empty (s : jsstring) : bool :=
  match s with [] => true | _ :: _ => false end.

(** ** White space

    [String.prototype.trim] and the class [\s] use the same set: the
    ECMAScript WhiteSpace and LineTerminator code points. *)
Definition isWhiteSpace (c : code_unit) : bool :=
  (c =? 9) || (c =? 10) || (c =? 11) || (c =? 12) || (c =? 13) || (c =? 32)
  || (c =? 160) || (c =? 5760) || ((8192 <=? c) && (c <=? 8202))
  || (c =? 8232) || (c =? 8233) || (c =? 8239) || (c =? 8287)
  || (c =? 12288) || (c =? 65279).

Fixpoint drop_ws (s : jsstring) : jsstring :=
  match s with
  | [] => []
  | c :: s' => if isWhiteSpace c then drop_ws s' else s
  end.

(** [s.trim()]: white space removed from both ends. *)
Definition trim (s : jsstring) : jsstring :=
  rev (drop_ws (rev (drop_ws s))).

(** [s.split(/\s+/)]: the pieces between maximal runs of white space.  The
    result is never empty; a separator at either end leaves an empty piece
    there, and the empty string splits to [[""]]. *)
Fixpoint split_ws (s : jsstring) : list jsstring :=
  match s with
  | [] => [[]]
  | c :: s' =>
      if isWhiteSpace c then
        match s' with
        | d :: _ => if isWhiteSpace d then split_ws s' else [] :: split_ws s'
        | [] => [[]; []]
        end
      else
        match split_ws s' with
        | t :: ts => (c :: t) :: ts
        | [] => [[c]]
        end
  end.

(** [words.join(" ")]. *)
Fixpoint join (ws : list jsstring) : jsstring :=
  match ws with
  | [] => []
  | [w] => w
  | w :: ws' => w ++ 32 :: join ws'
  end.

(** [s.length]. *)
Definition strlen (s : jsstring) : Z := Z.of_nat (List.length s).

(** The white-space-delimited tokens of a string: its maximal runs of
    characters that are not white space. *)
Definition tokens (s : jsstring) : list jsstring :=
  filter (fun t => negb (is_empty t)) (split_ws s).

Definition space_free (w : jsstring) : Prop :=
  Forall (fun c => isWhiteSpace c = false) w.

Definition word (w : jsstring) : Prop := w <> [] /\ space_free w.

(** [s.split(sep)] for a separator of one code unit: the pieces between the
    separators, empty pieces included. *)
Fixpoint split_on (sep : code_unit) (s : jsstring) : list jsstring :=
  match s with
  | [] => [[]]
  | c :: s' =>
      if c =? sep then [] :: split_on sep s'
      else match split_on sep s' with
           | l :: ls => (c :: l) :: ls
           | [] => [[c]]
           end
  end.

(** The pieces put back together around the separator. *)
Fixpoint join_on (sep : code_unit) (ls : list jsstring) : jsstring :=
  match ls with
  | [] => []
  | [l] => l
  | l :: ls' => l ++ sep :: join_on sep ls'
  end.

End JsString.

(* ===================================================================== *)
(** * js/lyrics_utils_hall.js *)
(* ===================================================================== *)

Module Lyrics.

Import JsString.

(** The interlude marker and the amen marker of the source. *)
Definition interlude : jsstring := Eval vm_compute in js "(간주)".
Definition amen : jsstring := Eval vm_compute in js "아멘".

(** [if (buffer.length) segments.push(buffer.splice(0))]: the pair of the
    segments and the buffer after the statement. *)
Definition flush (segments : list (list jsstring)) (buffer : list jsstring)
  : list (list jsstring) * list jsstring :=
  match buffer with
  | [] => (segments, buffer)
  | _ :: _ => (segments ++ [buffer], [])
  end.

(** The [for (const rawLine of lines)] loop of [segmentLyrics], followed by
    the final flush, with [segments] and [buffer] threaded through. *)
Fixpoint segment_loop (lines : list jsstring)
    (segments : list (list jsstring)) (buffer : list jsstring)
  : list (list jsstring) :=
  match lines with
  | [] =>
      match buffer with
      | [] => segments
      | _ :: _ => segments ++ [buffer]
      end
  | rawLine :: rest =>
      let trimmed := trim rawLine in
      if is_empty trimmed then
        let '(segments1, buffer1) := flush segments buffer in
        segment_loop rest segments1 buffer1
      else if str_eqb trimmed interlude then
        let '(segments1, buffer1) := flush segments buffer in
        segment_loop rest (segments1 ++ [[trimmed]]) buffer1
      else
        let buffer1 := buffer ++ [trimmed] in
        if (List.length buffer1 =? 2)%nat
        then segment_loop rest (segments ++ [buffer1]) []
        else segment_loop rest segments buffer1
  end.

Definition segmentLyrics (lines : list jsstring) : list (list jsstring) :=
  segment_loop lines [] [].

(** ** [splitBalanced] *)

(** [words.at(-1)]: the last element, [undefined] on an empty array. *)
Fixpoint at_last (words : list jsstring) : option jsstring :=
  match words with
  | [] => None
  | [w] => Some w
  | _ :: ws => at_last ws
  end.

(** [line.trim().split(/\s+/)]. *)
Definition split_words (line : jsstring) : list jsstring :=
  split_ws (trim line).

(** [words.at(-1) === "아멘"]. *)
Definition ends_with_amen (words : list jsstring) : bool :=
  match at_last words with
  | Some w => str_eqb w amen
  | None => false
  end.

(** [Math.abs(words.slice(0, i).join(" ").length
              - words.slice(i).join(" ").length)]. *)
Definition imbalance (words : list jsstring) (i : nat) : Z :=
  Z.abs (strlen (join (firstn i words)) - strlen (join (skipn i words))).

(** One iteration of the search loop.  [diff] starts at [Infinity], which is
    [None] here; every number is below it. *)
Definition split_step (words : list jsstring) (st : nat * option Z) (i : nat)
  : nat * option Z :=
  let '(best, diff) := st in
  let d := imbalance words i in
  match diff with
  | None => (i, Some d)
  | Some m => if (d <? m)%Z then (i, Some d) else (best, diff)
  end.

(** [for (let i = 1; i < words.length; i++)], from [best = 1] and
    [diff = Infinity]; the value of [best] when the loop ends. *)
Definition best_split (words : list jsstring) : nat :=
  fst (fold_left (split_step words)
                 (seq 1 (List.length words - 1)) (1%nat, None)).

Definition splitBalanced (line : jsstring) : list jsstring :=
  let words0 := split_words line in
  let hasAmen := ends_with_amen words0 in
  let words := if hasAmen then removelast words0 else words0 in
  if (List.length words <? 2)%nat then
    if hasAmen then [join words; amen] else [join words]
  else
    let best := best_split words in
    let res := [join (firstn best words); join (skipn best words)] in
    if hasAmen then res ++ [amen] else res.

(** ** Vocabulary of the properties *)

(** A regular lyric line: trimmed, not empty and not the interlude marker. *)
Definition regular (l : jsstring) : Prop :=
  is_empty l = false /\ l <> interlude.

(** The two shapes of a segment. *)
Definition well_shaped (seg : list jsstring) : Prop :=
  seg = [interlude]
  \/ ((List.length seg = 1 \/ List.length seg = 2)%nat /\ Forall regular seg).

(** The input lines that are not empty once trimmed, trimmed. *)
Definition non_empty_lines (lines : list jsstring) : list jsstring :=
  filter (fun l => negb (is_empty l)) (map trim lines).

(** What the loop has established once the indices [1..m] are visited. *)
Definition leftmost_min (words : list jsstring) (m best : nat) : Prop :=
  (1 <= best <= m)%nat
  /\ (forall j, (1 <= j <= m)%nat ->
                (imbalance words best <= imbalance words j)%Z)
  /\ (forall j, (1 <= j < best)%nat ->
                (imbalance words best < imbalance words j)%Z).

(** The loop invariant on [(best, diff)]. *)
Definition loop_inv (words : list jsstring) (m : nat) (st : nat * option Z)
  : Prop :=
  snd st = Some (imbalance words (fst st)) /\ leftmost_min words m (fst st).

(** The tokens that remain once a trailing amen marker is detached, and the
    entry the marker contributes to the result. *)
Definition remaining_words (line : jsstring) : list jsstring :=
  if ends_with_amen (split_words line)
  then removelast (split_words line) else split_words line.

Definition detached_marker (line : jsstring) : list jsstring :=
  if ends_with_amen (split_words line) then [amen] else [].

(** ** The lyrics pipeline of [renderLyrics] (js/render_hall.js) *)

(** [String(data.headline || "").split("\n")], from the headline text. *)
Definition lyric_lines (headline : jsstring) : list jsstring :=
  split_on 10%N headline.

(** The parts of one segment, in display order: the two nested [for] loops
    over the lines of the group and over [splitBalanced(line)]. *)
Definition group_parts (group : list jsstring) : list jsstring :=
  flat_map splitBalanced group.

(** The parts of every block, one list per segment. *)
Definition lyric_parts (headline : jsstring) : list (list jsstring) :=
  map group_parts (segmentLyrics (lyric_lines headline)).

(** The template [<div>${part}</div>] pushed for each part. *)
Definition part_html (part : jsstring) : jsstring :=
  js "<div>" ++ part ++ js "</div>".

(** The template of one block: the joined parts inside a [div] of class
    [lyrics-headline]. *)
Definition block_html (parts : list jsstring) : jsstring :=
  js "<div class=" ++ 34%N :: js "lyrics-headline" ++ 34%N :: js ">"
  ++ List.concat (map part_html parts) ++ js "</div>".

(** [processedHTML]: the blocks joined with the empty string. *)
Definition processedHTML (headline : jsstring) : jsstring :=
  List.concat (map block_html (lyric_parts headline)).


(** A line that is empty once trimmed. *)
Definition blank (line : jsstring) : Prop := is_empty (trim line) = true.

End Lyrics.

(* ===================================================================== *)
(** * js/autoshrink_hall.js and js/autoshrink_obs.js *)
(* ===================================================================== *)

Module TextFit.

Local Open Scope Z_scope.

(** The four measurements the loop reads from the element. *)
Record box := {
  scrollWidth : Z;
  offsetWidth : Z;
  scrollHeight : Z;
  offsetHeight : Z
}.

(** An element: the two style properties the function writes, and the
    layout engine's answer for each overflow mode and font size.  A font size
    is any finite number, held as a rational: [maxFont] and [minFont] are
    ordinary arguments, and [font--] takes one off whatever [maxFont] was. *)
Record element := {
  overflow : string;
  fontSize : Q;
  layout : string -> Q -> box
}.

Definition set_overflow (v : string) (el : element) : element :=
  {| overflow := v; fontSize := fontSize el; layout := layout el |}.

Definition set_fontSize (px : Q) (el : element) : element :=
  {| overflow := overflow el; fontSize := px; layout := layout el |}.

Definition measure (el : element) : box :=
  layout el (overflow el) (fontSize el).

(** [el.scrollWidth > el.offsetWidth || el.scrollHeight > el.offsetHeight]. *)
Definition overflows (el : element) : bool :=
  let b := measure el in
  (offsetWidth b <? scrollWidth b) || (offsetHeight b <? scrollHeight b).

(** [font--] on exact numbers. *)
Definition decrement (font : Q) : Q := (font - 1)%Q.

(** The [while] loop: [font] and [el.style.fontSize] go down together. *)
Equations? shrink_loop (el : element) (font minFont : Q) : element * Q
  by wf (Z.to_nat (Qceiling (font - minFont))) lt :=
  shrink_loop el font minFont with Qlt_le_dec minFont font => {
    | left Hlt with overflows el => {
        | true := shrink_loop (set_fontSize (decrement font) el)
                              (decrement font) minFont;
        | false := (el, font) };
    | right _ := (el, font) }.
Proof.
  unfold decrement.
  pose proof (Qle_ceiling (font - minFont)) as Hup.
  assert (H1 : 1 <= Qceiling (font - minFont)).
  { assert (H0 : (0 < inject_Z (Qceiling (font - minFont)))%Q) by lra.
    change 0%Q with (inject_Z 0) in H0. rewrite <- Zlt_Qlt in H0. lia. }
  assert (H2 : Qceiling (font - 1 - minFont) <= Qceiling (font - minFont) - 1).
  { rewrite <- (Qceiling_Z (Qceiling (font - minFont) - 1)).
    apply Qceiling_resp_le. unfold Z.sub. rewrite inject_Z_plus, inject_Z_opp.
    change (inject_Z 1) with 1%Q. lra. }
  lia.
Qed.

(** The body shared by both files; the OBS file also reads the previous
    overflow value into a constant that it never uses. *)
Definition autoShrinkFont (el : element) (maxFont minFont : Q) : element :=
  let el1 := set_overflow "visible" el in
  let el2 := set_fontSize maxFont el1 in
  fst (shrink_loop el2 maxFont minFont).

(** The default arguments of the two files. *)
Definition autoShrinkFont_hall (el : element) : element :=
  autoShrinkFont el 80 16.

Definition autoShrinkFont_obs (el : element) : element :=
  autoShrinkFont el 48 16.

(** The content fits at font size [f], measured with visible overflow. *)
Definition fits (el : element) (f : Q) : Prop :=
  overflows (set_fontSize f (set_overflow "visible" el)) = false.

(** A whole number of pixels, as a font size. *)
Definition px (n : Z) : Q := inject_Z n.

(** [Number.MAX_SAFE_INTEGER]: up to it, a double holds every integer, and
    taking one off is exact. *)
Definition MAX_SAFE_INTEGER : Z := 2 ^ 53 - 1.

Definition whole_pixels (n : Z) : Prop :=
  - MAX_SAFE_INTEGER <= n <= MAX_SAFE_INTEGER.

(** What the loop leaves behind when it starts from a whole number of
    pixels: the element at the returned size, which is the floor or a size
    that fits, with overflow at every whole size passed. *)
Definition loop_post (el : element) (font minFont : Z) (res : element * Q)
  : Prop :=
  exists r : Z,
    snd res = px r
    /\ fst res = set_fontSize (px r) el
    /\ minFont <= r <= font
    /\ (r = minFont \/ overflows (set_fontSize (px r) el) = false)
    /\ (forall f, r < f <= font ->
                  overflows (set_fontSize (px f) el) = true).

(** The size is monotone for the element: content that overflows at one
    size overflows at every larger one. *)
Definition monotone (el : element) : Prop :=
  forall f g : Q, (f <= g)%Q ->
    overflows (set_fontSize f (set_overflow "visible" el)) = true ->
    overflows (set_fontSize g (set_overflow "visible" el)) = true.

(** The property of the text-fit engine for any two numbers as bounds. *)
Definition largest_fit_for_any_bounds : Prop :=
  forall (el : element) (maxFont minFont : Q),
    monotone el -> (minFont <= maxFont)%Q ->
    let r := fontSize (autoShrinkFont el maxFont minFont) in
    (minFont <= r <= maxFont)%Q
    /\ ((exists f, (minFont <= f <= maxFont)%Q /\ fits el f) ->
        fits el r
        /\ forall f, (minFont <= f <= maxFont)%Q -> fits el f -> (f <= r)%Q)
    /\ ((forall f, (minFont <= f <= maxFont)%Q -> ~ fits el f) ->
        (r == minFont)%Q).

(** An element whose content is 10 pixels wide per pixel of font size, in a
    box of 300 by 100. *)
Definition sample_element : element :=
  {| overflow := "hidden"; fontSize := 12;
     layout := fun _ f => {| scrollWidth := Qceiling (f * 10);
                             offsetWidth := 300;
                             scrollHeight := Qceiling f;
                             offsetHeight := 100 |} |}.

(** An element whose content is wider than its box at every font size. *)
Definition crowded_element : element :=
  {| overflow := "hidden"; fontSize := 12;
     layout := fun _ _ => {| scrollWidth := 400; offsetWidth := 300;
                             scrollHeight := 50; offsetHeight := 100 |} |}.

End TextFit.

(* ===================================================================== *)
(** * The playback controls of [renderVideo] (js/render_hall.js) *)
(* ===================================================================== *)

Module Video.

Local Open Scope Q_scope.

(** JavaScript numbers as far as the seek arithmetic needs them: the finite
    values are rationals, and [add] and [sub] are exact; the rounding of a
    sum to a double is a parameter of [controls_click_rounded] below.  [NaN]
    and the two infinities are kept apart, since [video.duration] is [NaN]
    until the metadata is loaded and [Infinity] for an unbounded stream. *)
Inductive number :=
  | NaN
  | PosInf
  | NegInf
  | Fin (q : Q).

(** Two numbers denote the same value. *)
Definition num_eq (x y : number) : Prop :=
  match x, y with
  | NaN, NaN => True
  | PosInf, PosInf => True
  | NegInf, NegInf => True
  | Fin a, Fin b => a == b
  | _, _ => False
  end.

(** ToBoolean on a number: [0] and [NaN] are falsy. *)
Definition truthy (x : number) : bool :=
  match x with
  | NaN => false
  | Fin q => negb (Qeq_bool q 0)
  | PosInf | NegInf => true
  end.

(** [x || y]. *)
Definition or_else (x y : number) : number := if truthy x then x else y.

Definition add (x y : number) : number :=
  match x, y with
  | NaN, _ | _, NaN => NaN
  | PosInf, NegInf | NegInf, PosInf => NaN
  | PosInf, _ | _, PosInf => PosInf
  | NegInf, _ | _, NegInf => NegInf
  | Fin a, Fin b => Fin (a + b)
  end.

Definition neg (x : number) : number :=
  match x with
  | NaN => NaN
  | PosInf => NegInf
  | NegInf => PosInf
  | Fin a => Fin (- a)
  end.

Definition sub (x y : number) : number := add x (neg y).

(** [Math.max] and [Math.min] of two numbers. *)
Definition Math_max (x y : number) : number :=
  match x, y with
  | NaN, _ | _, NaN => NaN
  | PosInf, _ | _, PosInf => PosInf
  | NegInf, z | z, NegInf => z
  | Fin a, Fin b => Fin (Qmax a b)
  end.

Definition Math_min (x y : number) : number :=
  match x, y with
  | NaN, _ | _, NaN => NaN
  | NegInf, _ | _, NegInf => NegInf
  | PosInf, z | z, PosInf => z
  | Fin a, Fin b => Fin (Qmin a b)
  end.

(** The part of the video element the handler touches.  [play_allowed] says
    whether [video.play()] resolves; a rejection is caught and dropped. *)
Record video := {
  paused : bool;
  currentTime : number;
  duration : number;
  play_allowed : bool
}.

Definition set_paused (b : bool) (v : video) : video :=
  {| paused := b; currentTime := currentTime v; duration := duration v;
     play_allowed := play_allowed v |}.

Definition set_currentTime (t : number) (v : video) : video :=
  {| paused := paused v; currentTime := t; duration := duration v;
     play_allowed := play_allowed v |}.

(** The click handler of the controls.  [target] is the [data-act] attribute
    of the button the click landed on, [None] when it was outside every
    button.  The handler ends by showing the controls again; their opacity
    is not part of [video]. *)
Definition controls_click (target : option string) (v : video) : video :=
  match target with
  | None => v
  | Some act =>
      if String.eqb act "toggle" then
        if paused v
        then (if play_allowed v then set_paused false v else v)
        else set_paused true v
      else if String.eqb act "stop" then
        set_currentTime (Fin 0) (set_paused true v)
      else if String.eqb act "back" then
        set_currentTime
          (Math_max (Fin 0) (sub (or_else (currentTime v) (Fin 0)) (Fin 5))) v
      else if String.eqb act "fwd" then
        set_currentTime
          (Math_min (or_else (duration v) PosInf)
                    (add (or_else (currentTime v) (Fin 0)) (Fin 5))) v
      else v
  end.

Definition seek_back (v : video) : number :=
  currentTime (controls_click (Some "back"%string) v).

Definition seek_forward (v : video) : number :=
  currentTime (controls_click (Some "fwd"%string) v).

(** The clamping as the specification words it, for a playback time [t] and
    a duration [d]. *)
Definition clamped_back (t : Q) : number := Fin (Qmax 0 (t - 5)).
Definition clamped_forward (t : Q) (d : number) : number :=
  Math_min d (Fin (t + 5)).

(** A video whose metadata is not loaded yet, a clip of six seconds paused
    at 3.5 s, and a clip of no length. *)
Definition fresh_video : video :=
  {| paused := true; currentTime := Fin 0; duration := NaN;
     play_allowed := true |}.

Definition short_clip : video :=
  {| paused := false; currentTime := Fin (7 # 2); duration := Fin 6;
     play_allowed := true |}.

(** The clamping for every playback time and every duration, as the
    specification words it. *)
Definition always_clamped : Prop :=
  forall (v : video) (t : Q),
    currentTime v = Fin t -> 0 <= t ->
    num_eq (seek_back v) (clamped_back t)
    /\ num_eq (seek_forward v) (clamped_forward t (duration v)).

Definition empty_clip : video :=
  {| paused := true; currentTime := Fin 0; duration := Fin 0;
     play_allowed := true |}.

(** ** The visibility of the controls

    [showControls], the three mouse handlers of the video box and the hide
    timer.  Only the hide timers are tracked: [pending] holds the handles of
    those not yet fired or cleared; handles are positive and increase. *)
Record controls := {
  opacity : string;
  pointerEvents : string;
  hideTimer : option nat;
  pending : list nat;
  next_handle : nat
}.

(** The controls as the template creates them, [hideTimer] being [null];
    the first free timer handle is [S n]. *)
Definition initial_controls (n : nat) : controls :=
  {| opacity := "0"; pointerEvents := "none"; hideTimer := None;
     pending := []; next_handle := S n |}.

(** [if (hideTimer) clearTimeout(hideTimer)]: [null] and [0] are falsy. *)
Definition clear_hideTimer (c : controls) : list nat :=
  match hideTimer c with
  | Some h => if (h =? 0)%nat then pending c
              else filter (fun k => negb (k =? h)%nat) (pending c)
  | None => pending c
  end.

Definition showControls (c : controls) : controls :=
  {| opacity := "1"; pointerEvents := "auto";
     hideTimer := Some (next_handle c);
     pending := (clear_hideTimer c ++ [next_handle c])%list;
     next_handle := S (next_handle c) |}.

(** The function given to [setTimeout]. *)
Definition hide (c : controls) : controls :=
  {| opacity := "0"; pointerEvents := "none"; hideTimer := hideTimer c;
     pending := pending c; next_handle := next_handle c |}.

(** The [mouseleave] handler. *)
Definition mouseleave (c : controls) : controls :=
  {| opacity := "0"; pointerEvents := "none"; hideTimer := hideTimer c;
     pending := clear_hideTimer c; next_handle := next_handle c |}.

(** What reaches the controls.  The click handler of the control bar ends
    with [showControls()] when the click was on a button (after an [await]
    in the play case, hence as a step of its own) and returns before it
    otherwise. *)
Inductive ui_event :=
  | MouseMove
  | MouseEnter
  | MouseLeave
  | ClickEnds (target : option string)
  | HideTimerFires (h : nat).

(** One event handled to completion; a timer fires only while pending and
    leaves the pending list as it does. *)
Definition ui_step (e : ui_event) (c : controls) : controls :=
  match e with
  | MouseMove | MouseEnter => showControls c
  | MouseLeave => mouseleave c
  | ClickEnds (Some _) => showControls c
  | ClickEnds None => c
  | HideTimerFires h =>
      if existsb (Nat.eqb h) (pending c) then
        hide {| opacity := opacity c; pointerEvents := pointerEvents c;
                hideTimer := hideTimer c;
                pending := filter (fun k => negb (k =? h)%nat) (pending c);
                next_handle := next_handle c |}
      else c
  end.

Definition ui_run (es : list ui_event) (c : controls) : controls :=
  fold_left (fun c e => ui_step e c) es c.

(** The controls are hidden with no hide timer pending, or shown with
    exactly one pending, the one [hideTimer] holds. *)
Definition controls_ok (c : controls) : Prop :=
  (0 < next_handle c)%nat
  /\ ((pending c = [] /\ opacity c = "0"%string
       /\ pointerEvents c = "none"%string)
      \/ (exists h, pending c = [h] /\ hideTimer c = Some h
                    /\ (0 < h < next_handle c)%nat
                    /\ opacity c = "1"%string
                    /\ pointerEvents c = "auto"%string)).

(** The playback position [t] lies within the media: at or before a known
    duration; an unknown or unbounded duration does not restrict it. *)
Definition within (t : Q) (d : number) : Prop :=
  match d with
  | Fin q => t <= q
  | NegInf => False
  | NaN | PosInf => True
  end.

(** ** The seek arithmetic with rounding

    On doubles, [+] and [-] give the exact sum or difference rounded to a
    double; [Math.max], [Math.min] and [||] round nothing.  [round] stands
    for that rounding of a finite result. *)
Definition rounded (round : Q -> Q) (x : number) : number :=
  match x with
  | Fin q => Fin (round q)
  | NaN | PosInf | NegInf => x
  end.

(** The click handler with every sum and difference rounded by [round];
    [controls_click] is the case where nothing is rounded. *)
Definition controls_click_rounded (round : Q -> Q) (target : option string)
    (v : video) : video :=
  match target with
  | None => v
  | Some act =>
      if String.eqb act "toggle" then
        if paused v
        then (if play_allowed v then set_paused false v else v)
        else set_paused true v
      else if String.eqb act "stop" then
        set_currentTime (Fin 0) (set_paused true v)
      else if String.eqb act "back" then
        set_currentTime
          (Math_max (Fin 0)
             (rounded round (sub (or_else (currentTime v) (Fin 0)) (Fin 5)))) v
      else if String.eqb act "fwd" then
        set_currentTime
          (Math_min (or_else (duration v) PosInf)
             (rounded round (add (or_else (currentTime v) (Fin 0)) (Fin 5)))) v
      else v
  end.

(** A rounding never reverses the order of two numbers. *)
Definition monotone_rounding (round : Q -> Q) : Prop :=
  forall x y : Q, x <= y -> round x <= round y.

(** Rounding to the multiple of 1/1024 at or below. *)
Definition round_down_1024 (q : Q) : Q :=
  inject_Z (Qfloor (q * 1024)) / 1024.

End Video.

(* ===================================================================== *)
(** * js/main_hall.js and js/main_obs.js *)
(* ===================================================================== *)

(** The two display surfaces; each has its own copy of the scripts. *)
Inductive variant := Hall | Obs.

Module Dispatcher.

Local Open Scope string_scope.

(** The renderer functions of js/render_hall.js and js/render_obs.js. *)
Inductive renderer :=
  | renderLyrics | renderVerse | renderCorner | renderAnthem | renderPrayer
  | renderGreet | renderImage | renderIntro | renderVideo | renderBlank.

(** The [renderMap] literal of each file: its own keys, in source order. *)
Definition renderMap (v : variant) : list (string * renderer) :=
  match v with
  | Hall =>
      [("lyrics", renderLyrics); ("verse", renderVerse);
       ("corner", renderCorner); ("anthem", renderAnthem);
       ("prayer", renderPrayer); ("greet", renderGreet);
       ("image", renderImage); ("intro", renderIntro);
       ("video", renderVideo); ("blank", renderBlank)]
  | Obs =>
      [("lyrics", renderLyrics); ("verse", renderVerse);
       ("corner", renderCorner); ("anthem", renderAnthem);
       ("prayer", renderPrayer); ("greet", renderGreet);
       ("image", renderImage); ("blank", renderBlank)]
  end.

(** The function-valued properties every object literal inherits from
    [Object.prototype]; the accessor [__proto__] is inherited too and
    evaluates to [Object.prototype] itself. *)
Definition Object_prototype_methods : list string :=
  ["constructor"; "hasOwnProperty"; "isPrototypeOf"; "propertyIsEnumerable";
   "toLocaleString"; "toString"; "valueOf"; "__defineGetter__";
   "__defineSetter__"; "__lookupGetter__"; "__lookupSetter__"].

(** What [renderMap[key]] evaluates to. *)
Inductive jsvalue :=
  | Undefined
  | RenderFn (r : renderer)
  | BuiltinFn (name : string)
  | PrototypeObject.

Fixpoint assoc {A : Type} (key : string) (l : list (string * A)) : option A :=
  match l with
  | [] => None
  | (k, a) :: l' => if String.eqb k key then Some a else assoc key l'
  end.

Definition own_key (v : variant) (key : string) : bool :=
  match assoc key (renderMap v) with Some _ => true | None => false end.

Definition inherited_key (key : string) : bool :=
  existsb (String.eqb key) Object_prototype_methods
  || String.eqb key "__proto__".

Definition get_renderMap (v : variant) (key : string) : jsvalue :=
  match assoc key (renderMap v) with
  | Some r => RenderFn r
  | None =>
      if existsb (String.eqb key) Object_prototype_methods then BuiltinFn key
      else if String.eqb key "__proto__" then PrototypeObject
      else Undefined
  end.

(** ToBoolean: functions and objects are truthy, [undefined] is falsy. *)
Definition truthy (x : jsvalue) : bool :=
  match x with Undefined => false | _ => true end.

(** The rendered page: the [#container] element, the optional
    [#cover-background] layer of the hall page (its [style.display] when the
    element exists), and the console. *)
Record page := {
  display : string;
  className : string;
  innerHTML : string;
  coverBackground : option string;
  console : list string
}.

(** [clearScreen()] of js/render_hall.js and of js/render_obs.js; only the
    hall version looks for the cover background. *)
Definition clearScreen (v : variant) (p : page) : page :=
  {| display := "none"; className := ""; innerHTML := "";
     coverBackground :=
       match v with
       | Hall => match coverBackground p with
                 | Some _ => Some "none"
                 | None => None
                 end
       | Obs => coverBackground p
       end;
     console := console p |}.

(** [console.error(...)]: the first argument is recorded. *)
Definition console_error (msg : string) (p : page) : page :=
  {| display := display p; className := className p;
     innerHTML := innerHTML p; coverBackground := coverBackground p;
     console := (console p ++ [msg])%list |}.

(** How a handler ends: normally, or with an uncaught [TypeError]. *)
Inductive completion :=
  | Normal (p : page)
  | TypeError (p : page).

Section Runtime.

(** The number type of the runtime with its [ToString]. *)
Variable number : Type.
Variable Number_toString : number -> string.

(** The values [JSON.parse] produces.  The fields of an object are its own
    properties, one entry per key. *)
#[local] Unset Elimination Schemes.
Inductive json :=
  | JNull
  | JBool (b : bool)
  | JNum (n : number)
  | JStr (s : string)
  | JArr (items : list json)
  | JObj (fields : list (string * json)).
#[local] Set Elimination Schemes.

(** [JSON.parse]: [None] stands for the [SyntaxError] it throws. *)
Variable JSON_parse : string -> option json.

(** The renderers other than [renderBlank], as given by the render files. *)
Variable render : variant -> renderer -> json -> page -> completion.

(** [data.style]: [None] is the [TypeError] of reading a property of
    [null]; [Some None] is [undefined].  Booleans, numbers, strings and
    arrays have no property of that name, own or inherited. *)
Definition get_style (data : json) : option (option json) :=
  match data with
  | JNull => None
  | JObj fields => Some (assoc "style" fields)
  | JBool _ | JNum _ | JStr _ | JArr _ => Some None
  end.

(** ToString of a parsed value, as the property access [renderMap[...]]
    applies it; [None] is a [TypeError].  An array joins its elements with
    commas, [null] elements giving the empty string.  An object with an own
    [toString] property has no callable conversion left, since no parsed value
    is callable and [Object.prototype.valueOf] returns the object itself; any
    other object gives [[object Object]]. *)
Fixpoint ToString (x : json) : option string :=
  match x with
  | JNull => Some "null"
  | JBool true => Some "true"
  | JBool false => Some "false"
  | JNum n => Some (Number_toString n)
  | JStr s => Some s
  | JArr items =>
      let element (y : json) : option string :=
        match y with JNull => Some "" | _ => ToString y end in
      (fix join_elements (l : list json) : option string :=
         match l with
         | [] => Some ""
         | [y] => element y
         | y :: l' =>
             match element y, join_elements l' with
             | Some a, Some b => Some (a ++ "," ++ b)
             | _, _ => None
             end
         end) items
  | JObj fields =>
      match assoc "toString" fields with
      | Some _ => None
      | None => Some "[object Object]"
      end
  end.

(** ToPropertyKey of the value of [data.style]. *)
Definition ToPropertyKey (x : option json) : option string :=
  match x with
  | None => Some "undefined"
  | Some y => ToString y
  end.

(** A call [fn(data)] with [this] undefined.  Of the inherited methods only
    [toString] and [constructor] return when called this way, and they leave
    the page alone; the others convert [this] to an object first. *)
Definition call (v : variant) (fn : jsvalue) (data : json) (p : page)
  : completion :=
  match fn with
  | RenderFn renderBlank => Normal (clearScreen v p)
  | RenderFn r => render v r data p
  | BuiltinFn name =>
      if String.eqb name "toString" || String.eqb name "constructor"
      then Normal p else TypeError p
  | PrototypeObject | Undefined => TypeError p
  end.

(** [renderMap[data.style]], or the [TypeError] raised on the way. *)
Definition lookup_style (v : variant) (data : json) : option jsvalue :=
  match get_style data with
  | None => None
  | Some style =>
      match ToPropertyKey style with
      | None => None
      | Some key => Some (get_renderMap v key)
      end
  end.

(** js/main_hall.js, after the parse:
    [const fn = renderMap[data.style] || renderBlank; if (fn) fn(data);] *)
Definition dispatch_hall (data : json) (p : page) : completion :=
  match lookup_style Hall data with
  | None => TypeError p
  | Some found =>
      let fn := if truthy found then found else RenderFn renderBlank in
      if truthy fn then call Hall fn data p else Normal p
  end.

(** js/main_obs.js, after the parse:
    [const fn = renderMap[data.style];
     if (!fn) { renderBlank(data); return; } fn(data);] *)
Definition dispatch_obs (data : json) (p : page) : completion :=
  match lookup_style Obs data with
  | None => TypeError p
  | Some fn =>
      if negb (truthy fn) then call Obs (RenderFn renderBlank) data p
      else call Obs fn data p
  end.

Definition dispatch (v : variant) : json -> page -> completion :=
  match v with Hall => dispatch_hall | Obs => dispatch_obs end.

(** The callback handed to [connectWebSocket]. *)
Definition on_raw (v : variant) (raw : string) (p : page) : completion :=
  match JSON_parse raw with
  | None =>
      Normal (console_error
                match v with
                | Hall => "[!] JSON parse failed"
                | Obs => "[!] JSON 파싱 실패:"
                end p)
  | Some data => dispatch v data p
  end.

(** The function the dispatcher ends up calling, when it calls one. *)
Definition selected (v : variant) (data : json) : option jsvalue :=
  match lookup_style v data with
  | None => None
  | Some found => Some (if truthy found then found else RenderFn renderBlank)
  end.

(** The payload [{"style": "blank"}]. *)
Definition blank_payload : json := JObj [("style", JStr "blank")].

End Runtime.

Arguments JNull {number}.
Arguments JBool {number} b.
Arguments JStr {number} s.
Arguments JArr {number} items.
Arguments JObj {number} fields.
Arguments get_style {number} data.
Arguments ToString {number} Number_toString x.
Arguments ToPropertyKey {number} Number_toString x.
Arguments call {number} render v fn data p.
Arguments lookup_style {number} Number_toString v data.
Arguments dispatch_hall {number} Number_toString render data p.
Arguments dispatch_obs {number} Number_toString render data p.
Arguments dispatch {number} Number_toString render v _ _.
Arguments on_raw {number} Number_toString JSON_parse render v raw p.
Arguments selected {number} Number_toString v data.

(** ** A sample runtime

    Whole numbers printed in decimal, and renderers that leave the page as
    it is; enough to run the dispatcher on concrete payloads. *)

Definition decimal (z : Z) : string :=
  DecimalString.NilZero.string_of_int (Z.to_int z).

(** The literal messages of JSON, the only ones this sample parser knows. *)
Definition parse_literal (raw : string) : option (json Z) :=
  if String.eqb raw "null" then Some JNull
  else if String.eqb raw "true" then Some (JBool true)
  else if String.eqb raw "false" then Some (JBool false)
  else None.

Definition idle_render (_ : variant) (_ : renderer) (_ : json Z) (p : page)
  : completion := Normal p.

Definition lyrics_page : page :=
  {| display := "flex"; className := "lyrics"; innerHTML := "<div>...</div>";
     coverBackground := Some "block"; console := [] |}.

Definition run (v : variant) (data : json Z) (p : page) : completion :=
  dispatch decimal idle_render v data p.

(** The fallback as the specification words it: whenever the style of a
    parsed payload is not an own key of the table, the dispatcher returns
    normally with the blank page, whatever the shape of the payload. *)
Definition fallback_never_throws : Prop :=
  forall (number : Type) (Number_toString : number -> string)
         (render : variant -> renderer -> json number -> page -> completion)
         (v : variant) (data : json number) (p : page),
    (forall style key,
        get_style data = Some style ->
        ToPropertyKey Number_toString style = Some key ->
        own_key v key = false) ->
    dispatch Number_toString render v data p = Normal (clearScreen v p).

End Dispatcher.

(* ===================================================================== *)
(** * js/ws_hall.js and js/ws_obs.js *)
(* ===================================================================== *)

Module Transport.

Local Open Scope string_scope.
Local Open Scope list_scope.

Inductive readyState := CONNECTING | OPEN | CLOSING | CLOSED.

(** The function handed to [connectWebSocket], known by its identity. *)
Inductive callback := Callback (id : nat).

(** [event.data] of a message event: a text frame or a binary one. *)
Inductive payload :=
  | Text (s : string)
  | Binary (bytes : list N).

(** What a pending timer runs when it fires: the three arrow functions the
    script passes to [setInterval] and [setTimeout]. *)
Inductive task :=
  | SendPing
  | PongMissing
  | Reconnect (onMessage : callback).

Record timer := {
  handle : nat;
  delay : Z;
  repeats : bool;
  job : task
}.

(** A [WebSocket] object: its ready state, the callback its handlers have
    captured, and the frames sent on it. *)
Record socket := {
  state : readyState;
  listener : callback;
  outbox : list string
}.

(** The four module-level variables of the script, and the part of the
    browser they refer to: the sockets created so far, the pending timers
    (handles are handed out in increasing order, [null] is [None]), the calls
    made to the callback and the console, oldest first. *)
Record client := {
  ws : option nat;
  connecting : bool;
  pingTimer : option nat;
  pongTimeout : option nat;
  sockets : list socket;
  timers : list timer;
  next_handle : nat;
  forwarded : list (callback * payload);
  console : list string
}.

Definition initial : client :=
  {| ws := None; connecting := false; pingTimer := None; pongTimeout := None;
     sockets := []; timers := []; next_handle := 1; forwarded := [];
     console := [] |}.

Definition set_connecting (b : bool) (c : client) : client :=
  {| ws := ws c; connecting := b; pingTimer := pingTimer c;
     pongTimeout := pongTimeout c; sockets := sockets c; timers := timers c;
     next_handle := next_handle c; forwarded := forwarded c;
     console := console c |}.

Definition set_pingTimer (h : option nat) (c : client) : client :=
  {| ws := ws c; connecting := connecting c; pingTimer := h;
     pongTimeout := pongTimeout c; sockets := sockets c; timers := timers c;
     next_handle := next_handle c; forwarded := forwarded c;
     console := console c |}.

Definition set_pongTimeout (h : option nat) (c : client) : client :=
  {| ws := ws c; connecting := connecting c; pingTimer := pingTimer c;
     pongTimeout := h; sockets := sockets c; timers := timers c;
     next_handle := next_handle c; forwarded := forwarded c;
     console := console c |}.

Definition set_timers (l : list timer) (c : client) : client :=
  {| ws := ws c; connecting := connecting c; pingTimer := pingTimer c;
     pongTimeout := pongTimeout c; sockets := sockets c; timers := l;
     next_handle := next_handle c; forwarded := forwarded c;
     console := console c |}.

Definition set_sockets (l : list socket) (c : client) : client :=
  {| ws := ws c; connecting := connecting c; pingTimer := pingTimer c;
     pongTimeout := pongTimeout c; sockets := l; timers := timers c;
     next_handle := next_handle c; forwarded := forwarded c;
     console := console c |}.

(** [console.log], [console.warn] and [console.error]. *)
Definition log (msg : string) (c : client) : client :=
  {| ws := ws c; connecting := connecting c; pingTimer := pingTimer c;
     pongTimeout := pongTimeout c; sockets := sockets c; timers := timers c;
     next_handle := next_handle c; forwarded := forwarded c;
     console := (console c ++ [msg])%list |}.

(** A call of the callback. *)
Definition forward (onMessage : callback) (d : payload) (c : client)
  : client :=
  {| ws := ws c; connecting := connecting c; pingTimer := pingTimer c;
     pongTimeout := pongTimeout c; sockets := sockets c; timers := timers c;
     next_handle := next_handle c;
     forwarded := (forwarded c ++ [(onMessage, d)])%list;
     console := console c |}.

(** [ws = new WebSocket(...)] with the four handlers that capture
    [onMessage]. *)
Definition new_WebSocket (onMessage : callback) (c : client) : client :=
  {| ws := Some (List.length (sockets c)); connecting := connecting c;
     pingTimer := pingTimer c; pongTimeout := pongTimeout c;
     sockets := (sockets c ++ [{| state := CONNECTING; listener := onMessage;
                                  outbox := [] |}])%list;
     timers := timers c; next_handle := next_handle c;
     forwarded := forwarded c; console := console c |}.

(** [setTimeout] and [setInterval]: the new handle and the client after. *)
Definition schedule (rep : bool) (j : task) (ms : Z) (c : client)
  : nat * client :=
  (next_handle c,
   {| ws := ws c; connecting := connecting c; pingTimer := pingTimer c;
      pongTimeout := pongTimeout c; sockets := sockets c;
      timers := (timers c ++ [{| handle := next_handle c; delay := ms;
                                 repeats := rep; job := j |}])%list;
      next_handle := S (next_handle c); forwarded := forwarded c;
      console := console c |}).

Definition setTimeout := schedule false.
Definition setInterval := schedule true.

(** [clearTimeout] and [clearInterval] share one pool of handles; a handle
    that is [null] or no longer pending cancels nothing. *)
Definition cancel (h : option nat) (l : list timer) : list timer :=
  match h with
  | None => l
  | Some n => filter (fun t => negb (handle t =? n)%nat) l
  end.

Definition clearTimer (h : option nat) (c : client) : client :=
  set_timers (cancel h (timers c)) c.

Definition ws_readyState (c : client) : option readyState :=
  match ws c with
  | Some i => option_map state (nth_error (sockets c) i)
  | None => None
  end.

(** [ws && ws.readyState === WebSocket.OPEN]. *)
Definition ws_open (c : client) : bool :=
  match ws_readyState c with Some OPEN => true | _ => false end.

Fixpoint update_nth {A : Type} (i : nat) (f : A -> A) (l : list A) : list A :=
  match l, i with
  | [], _ => []
  | x :: l', O => f x :: l'
  | x :: l', S i' => x :: update_nth i' f l'
  end.

Definition update_ws (f : socket -> socket) (c : client) : client :=
  match ws c with
  | Some i => set_sockets (update_nth i f (sockets c)) c
  | None => c
  end.

(** [ws.send("ping")]. *)
Definition ws_send (msg : string) : client -> client :=
  update_ws (fun s => {| state := state s; listener := listener s;
                         outbox := (outbox s ++ [msg])%list |}).

(** [ws.close()]: starts the closing handshake unless it has started. *)
Definition ws_close : client -> client :=
  update_ws (fun s => {| state := match state s with
                                  | CONNECTING | OPEN => CLOSING
                                  | other => other
                                  end;
                         listener := listener s; outbox := outbox s |}).

(** ** [connectWebSocket] and its handlers *)

(** The guard on the first line of the function body differs between the
    two files. *)
Definition busy (v : variant) (c : client) : bool :=
  match v with
  | Hall => connecting c
  | Obs => connecting c || ws_open c
  end.

Definition connectWebSocket (v : variant) (onMessage : callback) (c : client)
  : client :=
  if busy v c then c
  else new_WebSocket onMessage (set_connecting true c).

(** The function given to [setTimeout] inside the ping interval. *)
Definition pong_missing (c : client) : client :=
  ws_close (log "🧟 pong 응답 없음 → 연결 끊기" c).

(** The function given to [setInterval]. *)
Definition send_ping (c : client) : client :=
  if ws_open c then
    let c1 := ws_send "ping" c in
    let '(h, c2) := setTimeout PongMissing 5000 c1 in
    set_pongTimeout (Some h) c2
  else c.

Definition onopen (c : client) : client :=
  let c1 := set_connecting false (log "[✓] WebSocket connected" c) in
  let '(h, c2) := setInterval SendPing 30000 c1 in
  set_pingTimer (Some h) c2.

Definition onerror (c : client) : client :=
  set_connecting false (log "[!] WebSocket error" c).

(** The hall file clears the two timers and then schedules the reconnection;
    the OBS file schedules it first. *)
Definition onclose (v : variant) (onMessage : callback) (c : client)
  : client :=
  let c1 :=
    set_connecting false
      (log match v with
           | Hall => "[x] WebSocket closed, reconnecting..."
           | Obs => "[x] WebSocket closed, attempting to reconnect..."
           end c) in
  match v with
  | Hall =>
      let c2 := clearTimer (pingTimer c1) c1 in
      let c3 := clearTimer (pongTimeout c2) c2 in
      snd (setTimeout (Reconnect onMessage) 3000 c3)
  | Obs =>
      let c2 := snd (setTimeout (Reconnect onMessage) 3000 c1) in
      let c3 := clearTimer (pingTimer c2) c2 in
      clearTimer (pongTimeout c3) c3
  end.

Definition is_pong (d : payload) : bool :=
  match d with
  | Text s => String.eqb s "pong"
  | Binary _ => false
  end.

(** The same text in both files. *)
Definition onmessage (onMessage : callback) (d : payload) (c : client)
  : client :=
  if is_pong d then clearTimer (pongTimeout c) c
  else forward onMessage d c.

(** ** The event loop

    One event is handled at a time, to completion. *)

Inductive event :=
  | Connect (onMessage : callback)
  | Open (i : nat)
  | Error (i : nat)
  | Close (i : nat)
  | Message (i : nat) (d : payload)
  | Fire (h : nat).

Definition set_state (i : nat) (st : readyState) (c : client) : client :=
  set_sockets
    (update_nth i (fun s => {| state := st; listener := listener s;
                               outbox := outbox s |}) (sockets c)) c.

Definition run_task (v : variant) (j : task) (c : client) : client :=
  match j with
  | SendPing => send_ping c
  | PongMissing => pong_missing c
  | Reconnect onMessage => connectWebSocket v onMessage c
  end.

(** A script calls [connectWebSocket]; socket [i] opens, fails, closes or
    receives a frame; the timer with handle [h] fires.  A one-shot timer
    leaves the pending list when it fires.  An event that cannot occur in the
    current state changes nothing. *)
Definition step (v : variant) (e : event) (c : client) : client :=
  match e with
  | Connect onMessage => connectWebSocket v onMessage c
  | Open i =>
      match option_map state (nth_error (sockets c) i) with
      | Some CONNECTING => onopen (set_state i OPEN c)
      | _ => c
      end
  | Error i =>
      match nth_error (sockets c) i with
      | Some _ => onerror c
      | None => c
      end
  | Close i =>
      match nth_error (sockets c) i with
      | Some s =>
          match state s with
          | CLOSED => c
          | _ => onclose v (listener s) (set_state i CLOSED c)
          end
      | None => c
      end
  | Message i d =>
      match nth_error (sockets c) i with
      | Some s =>
          match state s with
          | OPEN => onmessage (listener s) d c
          | _ => c
          end
      | None => c
      end
  | Fire h =>
      match find (fun t => (handle t =? h)%nat) (timers c) with
      | Some t =>
          run_task v (job t)
            (if repeats t then c else clearTimer (Some h) c)
      | None => c
      end
  end.

Definition run (v : variant) (es : list event) (c : client) : client :=
  fold_left (fun c e => step v e c) es c.

(** ** Timer handles are fresh *)

Definition known (c : client) (h : option nat) : Prop :=
  match h with
  | Some n => (n < next_handle c)%nat
  | None => True
  end.

(** Every handle in use was handed out before: the pending timers and the
    two handles the script keeps are below the next handle. *)
Definition wf (c : client) : Prop :=
  Forall (fun t => (handle t < next_handle c)%nat) (timers c)
  /\ known c (pingTimer c)
  /\ known c (pongTimeout c).

(** The callback of the page script. *)
Definition main : callback := Callback 0.

(** The client once the page script has connected and the socket is open. *)
Definition connected (v : variant) : client :=
  run v [Connect main; Open 0] initial.

(** The timer the close handler schedules. *)
Definition reconnect_timer (onMessage : callback) (c : client) : timer :=
  {| handle := next_handle c; delay := 3000; repeats := false;
     job := Reconnect onMessage |}.

(** [ws] designates the socket created last, if any was. *)
Definition newest (c : client) : Prop :=
  match ws c with
  | None => sockets c = []
  | Some i => S i = List.length (sockets c)
  end.

(** A connection attempt that fails: the error event, the close event, and
    the reconnection timer the close handler has scheduled.  The [k]-th
    attempt uses socket [k], and its reconnection timer has handle [S k]
    when no other timer was ever requested. *)
Definition failure (k : nat) : list event := [Error k; Close k; Fire (S k)].

(** [n] failed attempts in a row, from the first. *)
Definition failures (n : nat) : list event := flat_map failure (seq 0 n).

(** The client while attempt number [n] is in progress, the [n] earlier
    ones having failed: what the module variables and the browser hold. *)
Definition attempting (onMessage : callback) (n : nat) (c : client) : Prop :=
  ws c = Some n
  /\ connecting c = true
  /\ pingTimer c = None
  /\ pongTimeout c = None
  /\ timers c = []
  /\ next_handle c = S n
  /\ sockets c
     = repeat {| state := CLOSED; listener := onMessage; outbox := [] |} n
       ++ [{| state := CONNECTING; listener := onMessage; outbox := [] |}]
  /\ forwarded c = [].

(** The client with socket [i] open and idle: no attempt in progress, and
    the ping interval, under handle [hp], the only pending timer. *)
Definition healthy (onMessage : callback) (i hp : nat) (c : client) : Prop :=
  ws c = Some i
  /\ (exists out, nth_error (sockets c) i
                  = Some {| state := OPEN; listener := onMessage;
                            outbox := out |})
  /\ connecting c = false
  /\ pingTimer c = Some hp
  /\ timers c = [{| handle := hp; delay := 30000; repeats := true;
                    job := SendPing |}]
  /\ (hp < next_handle c)%nat.

(** A ping that gets no answer: the interval fires, the deadline it armed
    (handle [h]) fires, and the socket closes. *)
Definition silence (i hp h : nat) : list event := [Fire hp; Fire h; Close i].

(** What the heartbeat handlers leave alone. *)
Definition same_vars (c c' : client) : Prop :=
  ws c' = ws c /\ pingTimer c' = pingTimer c /\ forwarded c' = forwarded c.

End Transport.

(* ===================================================================== *)
(** * Properties of js/lyrics_utils_hall.js *)
(* ===================================================================== *)

Module LyricsFacts.
Import JsString Lyrics.

(** ** Properties of [segmentLyrics] *)

Lemma str_eqb_eq (s t : jsstring) : str_eqb s t = true <-> s = t.
Proof.
  revert t; induction s as [|c s IH]; intros [|d t]; simpl;
    try (split; [discriminate | discriminate]); try tauto.
  rewrite andb_true_iff, N.eqb_eq, IH.
  split; [intros [-> ->]; reflexivity | intros E; inversion E; auto].
Qed.

Lemma str_eqb_neq (s t : jsstring) : str_eqb s t = false <-> s <> t.
Proof.
  rewrite <- str_eqb_eq. destruct (str_eqb s t); split; congruence.
Qed.

Lemma segment_loop_concat (lines : list jsstring) :
  forall segments buffer,
    List.concat (segment_loop lines segments buffer)
    = List.concat segments ++ buffer ++ non_empty_lines lines.
Proof.
  unfold non_empty_lines.
  induction lines as [|rawLine rest IH]; intros segments buffer; simpl.
  - destruct buffer; rewrite ?concat_app; simpl; rewrite ?app_nil_r; reflexivity.
  - destruct (is_empty (trim rawLine)) eqn:He; simpl.
    + destruct buffer as [|b bs]; simpl; rewrite IH, ?concat_app; simpl;
        rewrite ?app_nil_r, <- ?app_assoc; reflexivity.
    + destruct (str_eqb (trim rawLine) interlude) eqn:Hi.
      * destruct buffer as [|b bs]; simpl; rewrite IH, !concat_app; simpl;
          rewrite ?app_nil_r, <- ?app_assoc; reflexivity.
      * destruct (List.length (buffer ++ [trim rawLine]) =? 2)%nat;
          rewrite IH, ?concat_app; simpl; rewrite ?app_nil_r, <- ?app_assoc;
          reflexivity.
Qed.

Lemma well_shaped_snoc segments seg :
  Forall well_shaped segments -> well_shaped seg ->
  Forall well_shaped (segments ++ [seg]).
Proof. intros Hs Hseg. apply Forall_app; split; auto. Qed.

Lemma segment_loop_shape (lines : list jsstring) :
  forall segments buffer,
    Forall well_shaped segments ->
    (List.length buffer <= 1)%nat -> Forall regular buffer ->
    Forall well_shaped (segment_loop lines segments buffer).
Proof.
  induction lines as [|rawLine rest IH]; intros segments buffer Hs Hlen Hreg;
    simpl.
  - destruct buffer as [|b bs]; [assumption|].
    apply well_shaped_snoc; [assumption|]. right. split; [|assumption].
    simpl in *. left. lia.
  - assert (Hbuf : buffer <> [] -> well_shaped buffer).
    { intros Hne. right. split; [|assumption].
      destruct buffer; [congruence|]. simpl in *. left. lia. }
    destruct (is_empty (trim rawLine)) eqn:He.
    + destruct buffer as [|b bs]; simpl.
      * apply IH; auto.
      * apply IH; simpl; auto. apply well_shaped_snoc; auto.
        apply Hbuf; discriminate.
    + destruct (str_eqb (trim rawLine) interlude) eqn:Hi.
      * apply str_eqb_eq in Hi. rewrite Hi.
        destruct buffer as [|b bs]; simpl.
        -- apply IH; simpl; auto. apply well_shaped_snoc; auto. left; reflexivity.
        -- apply IH; simpl; auto.
           apply well_shaped_snoc; [|left; reflexivity].
           apply well_shaped_snoc; auto. apply Hbuf; discriminate.
      * apply str_eqb_neq in Hi.
        assert (Hreg1 : Forall regular (buffer ++ [trim rawLine])).
        { apply Forall_app; split; auto. constructor; [split; auto|constructor]. }
        destruct (List.length (buffer ++ [trim rawLine]) =? 2)%nat eqn:H2.
        -- apply Nat.eqb_eq in H2. apply IH; simpl; auto.
           apply well_shaped_snoc; auto. right; split; auto.
        -- apply Nat.eqb_neq in H2. apply IH; auto.
           rewrite length_app in *. simpl in *. lia.
Qed.

(** C6. [segmentLyrics] keeps exactly the lines that are not empty after
    trimming, in their input order; every segment is either the singleton of
    the interlude marker or holds one or two regular lines, so a segment that
    contains the marker is that singleton; and the lines A, B, empty,
    interlude marker, C give the segments [A,B], [marker], [C]. *)
Theorem segmentLyrics_segments (lines : list jsstring) :
  List.concat (segmentLyrics lines) = non_empty_lines lines
  /\ Forall well_shaped (segmentLyrics lines)
  /\ (forall seg, In seg (segmentLyrics lines) ->
                  In interlude seg -> seg = [interlude])
  /\ segmentLyrics [js "A"; js "B"; js ""; js "(간주)"; js "C"]
     = [[js "A"; js "B"]; [js "(간주)"]; [js "C"]].
Proof.
  assert (Hshape : Forall well_shaped (segmentLyrics lines)).
  { apply segment_loop_shape; simpl; auto. }
  repeat split.
  - unfold segmentLyrics. rewrite segment_loop_concat. reflexivity.
  - exact Hshape.
  - intros seg Hin Hmark. rewrite Forall_forall in Hshape.
    destruct (Hshape seg Hin) as [E | [_ Hreg]]; [assumption|].
    rewrite Forall_forall in Hreg. destruct (Hreg _ Hmark) as [_ Hne].
    congruence.
Qed.

(** The third part of the theorem at the five lines of the example. *)
Lemma segmentLyrics_segments_witness :
  In [interlude]
     (segmentLyrics [js "A"; js "B"; js ""; js "(간주)"; js "C"])
  /\ In interlude [interlude]
  /\ [interlude] = [interlude].
Proof.
  assert (H1 : In [interlude]
                 (segmentLyrics [js "A"; js "B"; js ""; js "(간주)"; js "C"]))
    by (right; left; reflexivity).
  assert (H2 : In interlude [interlude]) by (left; reflexivity).
  split; [exact H1|]. split; [exact H2|].
  exact (proj1 (proj2 (proj2 (segmentLyrics_segments
           [js "A"; js "B"; js ""; js "(간주)"; js "C"]))) [interlude] H1 H2).
Defined.

(** ** The search loop of [splitBalanced] *)

Lemma split_step_inv words m st :
  (1 <= m)%nat -> loop_inv words m st ->
  loop_inv words (S m) (split_step words st (S m)).
Proof.
  intros Hm [Hd (Hb & Hmin & Hfirst)]. destruct st as [best diff].
  simpl in *. subst diff. unfold split_step.
  destruct (imbalance words (S m) <? imbalance words best)%Z eqn:Hlt.
  - apply Z.ltb_lt in Hlt. split; [reflexivity|]. simpl.
    split; [lia|]. split.
    + intros j Hj. destruct (Nat.eq_dec j (S m)) as [->|Hne]; [lia|].
      specialize (Hmin j). lia.
    + intros j Hj. specialize (Hmin j). lia.
  - apply Z.ltb_ge in Hlt. split; [reflexivity|]. simpl.
    split; [lia|]. split.
    + intros j Hj. destruct (Nat.eq_dec j (S m)) as [->|Hne]; [lia|].
      apply Hmin. lia.
    + exact Hfirst.
Qed.

Lemma split_loop_inv words m :
  (1 <= m)%nat ->
  loop_inv words m (fold_left (split_step words) (seq 1 m) (1%nat, None)).
Proof.
  induction m as [|m IH]; [lia|]. intros _.
  destruct m as [|m].
  - simpl. split; [reflexivity|]. simpl. split; [lia|]. split.
    + intros j Hj. assert (j = 1)%nat as -> by lia. lia.
    + intros j Hj. lia.
  - rewrite seq_S, fold_left_app. simpl fold_left at 1.
    apply split_step_inv; [lia|]. apply IH. lia.
Qed.

Lemma best_split_leftmost_min words :
  (2 <= List.length words)%nat ->
  leftmost_min words (List.length words - 1) (best_split words).
Proof.
  intros Hlen. unfold best_split.
  apply (split_loop_inv words (List.length words - 1)). lia.
Qed.

(** C7. With at least two tokens left after detaching a trailing amen marker,
    [splitBalanced] returns the halves joined at an index between 1 and the
    token count minus one whose length difference is minimal, the leftmost
    such index, followed by the detached marker; with fewer than two tokens
    it returns the joined line followed by the detached marker; and the line
    made of the word 기쁘다 and the amen marker gives these two entries. *)
Theorem splitBalanced_leftmost_balance (line : jsstring) :
  let words := remaining_words line in
  ((2 <= List.length words)%nat ->
     exists i, (1 <= i <= List.length words - 1)%nat
       /\ splitBalanced line
          = [join (firstn i words); join (skipn i words)]
            ++ detached_marker line
       /\ (forall j, (1 <= j <= List.length words - 1)%nat ->
                     (imbalance words i <= imbalance words j)%Z)
       /\ (forall j, (1 <= j < i)%nat ->
                     (imbalance words i < imbalance words j)%Z))
  /\ ((List.length words < 2)%nat ->
      splitBalanced line = [join words] ++ detached_marker line)
  /\ splitBalanced (js "기쁘다 아멘") = [js "기쁘다"; js "아멘"].
Proof.
  intros words. split; [|split]; [| |reflexivity].
  - intros Hlen. exists (best_split words).
    destruct (best_split_leftmost_min words Hlen) as (Hb & Hmin & Hfirst).
    split; [exact Hb|]. split; [|split; assumption].
    unfold splitBalanced, detached_marker. fold (remaining_words line).
    fold words. apply Nat.ltb_ge in Hlen. rewrite Hlen.
    destruct (ends_with_amen (split_words line)); reflexivity.
  - intros Hlen. unfold splitBalanced, detached_marker.
    fold (remaining_words line). fold words.
    apply Nat.ltb_lt in Hlen. rewrite Hlen.
    destruct (ends_with_amen (split_words line)); reflexivity.
Qed.

(** The theorem at a line of four words. *)
Lemma splitBalanced_leftmost_balance_witness :
  (2 <= List.length (remaining_words (js "aa b cc dddd")))%nat
  /\ exists i, (1 <= i <= List.length (remaining_words (js "aa b cc dddd")) - 1)%nat
       /\ splitBalanced (js "aa b cc dddd")
          = [join (firstn i (remaining_words (js "aa b cc dddd")));
             join (skipn i (remaining_words (js "aa b cc dddd")))]
            ++ detached_marker (js "aa b cc dddd")
       /\ (forall j, (1 <= j <= List.length (remaining_words (js "aa b cc dddd")) - 1)%nat ->
             (imbalance (remaining_words (js "aa b cc dddd")) i
              <= imbalance (remaining_words (js "aa b cc dddd")) j)%Z)
       /\ (forall j, (1 <= j < i)%nat ->
             (imbalance (remaining_words (js "aa b cc dddd")) i
              < imbalance (remaining_words (js "aa b cc dddd")) j)%Z).
Proof.
  assert (H : (2 <= List.length (remaining_words (js "aa b cc dddd")))%nat)
    by (vm_compute; lia).
  split; [exact H|].
  exact (proj1 (splitBalanced_leftmost_balance (js "aa b cc dddd")) H).
Defined.

(** ** Tokens are preserved by [splitBalanced] *)

Lemma split_ws_not_nil s : split_ws s <> [].
Proof.
  induction s as [|c s IH]; simpl; [discriminate|].
  destruct (isWhiteSpace c).
  - destruct s as [|d s']; [discriminate|].
    destruct (isWhiteSpace d); [exact IH | discriminate].
  - destruct (split_ws s); discriminate.
Qed.

Lemma split_ws_cons_word c s :
  isWhiteSpace c = false ->
  split_ws (c :: s) = (c :: hd [] (split_ws s)) :: tl (split_ws s).
Proof.
  intros Hc. simpl. rewrite Hc.
  destruct (split_ws s) eqn:E; [|reflexivity].
  exfalso; exact (split_ws_not_nil s E).
Qed.

Lemma split_ws_app_word w r :
  space_free w ->
  split_ws (w ++ r) = (w ++ hd [] (split_ws r)) :: tl (split_ws r).
Proof.
  induction 1 as [|c w Hc Hw IH]; simpl app.
  - destruct (split_ws r) eqn:E; [|reflexivity].
    exfalso; exact (split_ws_not_nil r E).
  - rewrite split_ws_cons_word by assumption. rewrite IH. reflexivity.
Qed.

Lemma join_word_head w ws :
  word w -> exists c r, join (w :: ws) = c :: r /\ isWhiteSpace c = false.
Proof.
  intros [Hne Hsf]. destruct w as [|c w]; [congruence|].
  inversion Hsf; subst.
  destruct ws; simpl; eauto.
Qed.

Lemma split_ws_join ws :
  ws <> [] -> Forall word ws -> split_ws (join ws) = ws.
Proof.
  induction ws as [|w ws IH]; [congruence|]. intros _ Hall.
  inversion Hall as [|? ? Hw Hws]; subst.
  destruct ws as [|w' ws'].
  - simpl. rewrite <- (app_nil_r w) at 1.
    rewrite split_ws_app_word by apply Hw. simpl. rewrite app_nil_r. reflexivity.
  - change (join (w :: w' :: ws')) with (w ++ 32%N :: join (w' :: ws')).
    rewrite split_ws_app_word by apply Hw.
    assert (Hsp : split_ws (32%N :: join (w' :: ws')) = [] :: w' :: ws').
    { inversion Hws; subst.
      destruct (join_word_head w' ws' H1) as (c & r & Hj & Hc).
      transitivity ([] :: split_ws (join (w' :: ws'))).
      - rewrite Hj. simpl. rewrite Hc. reflexivity.
      - rewrite IH by (discriminate || assumption). reflexivity. }
    rewrite Hsp. simpl. rewrite app_nil_r. reflexivity.
Qed.

Lemma filter_words ws :
  Forall word ws -> filter (fun t => negb (is_empty t)) ws = ws.
Proof.
  induction 1 as [|w ws [Hne _] _ IH]; simpl; [reflexivity|].
  destruct w; [congruence|]. simpl. rewrite IH. reflexivity.
Qed.

Lemma tokens_join ws : Forall word ws -> tokens (join ws) = ws.
Proof.
  intros Hall. destruct ws as [|w ws]; [reflexivity|].
  unfold tokens. rewrite split_ws_join by (discriminate || assumption).
  apply filter_words; assumption.
Qed.

Lemma split_ws_space_free s : Forall space_free (split_ws s).
Proof.
  induction s as [|c s IH]; simpl.
  - repeat constructor.
  - destruct (isWhiteSpace c) eqn:Hc.
    + destruct s as [|d s']; [repeat constructor|].
      destruct (isWhiteSpace d); [exact IH|].
      constructor; [constructor | exact IH].
    + destruct (split_ws s) as [|t ts]; [repeat constructor; assumption|].
      inversion IH; subst. constructor; [constructor|]; assumption.
Qed.

(** A string that ends with a character that is not white space splits into
    non-empty pieces, the first one possibly excepted: it is empty only when
    the string starts with white space. *)
Lemma split_ws_closed s c :
  isWhiteSpace c = false ->
  Forall (fun t => t <> []) (tl (split_ws (s ++ [c])))
  /\ (hd [] (split_ws (s ++ [c])) = [] ->
      exists a r, s = a :: r /\ isWhiteSpace a = true).
Proof.
  intros Hc. induction s as [|a s [IHt IHh]].
  - simpl. rewrite Hc. simpl. split; [constructor | discriminate].
  - change ((a :: s) ++ [c]) with (a :: (s ++ [c])).
    destruct (isWhiteSpace a) eqn:Ha.
    + split; [|eauto].
      simpl split_ws. rewrite Ha.
      destruct (s ++ [c]) as [|d r] eqn:E.
      { destruct s; discriminate. }
      destruct (isWhiteSpace d) eqn:Hd; [exact IHt|].
      cbn [tl].
      assert (Hnn := split_ws_not_nil (d :: r)).
      destruct (split_ws (d :: r)) as [|t ts] eqn:Es; [congruence|].
      simpl in IHt, IHh. constructor; [|exact IHt].
      intros ->. destruct (IHh eq_refl) as (a' & r' & -> & Ha').
      simpl in E. inversion E; subst. congruence.
    + rewrite split_ws_cons_word by assumption. simpl.
      split; [exact IHt | discriminate].
Qed.

Lemma drop_ws_head s :
  drop_ws s = [] \/ exists a r, drop_ws s = a :: r /\ isWhiteSpace a = false.
Proof.
  induction s as [|c s IH]; simpl; [left; reflexivity|].
  destruct (isWhiteSpace c) eqn:Hc; [exact IH|]. right; eauto.
Qed.

Lemma drop_ws_snoc s a :
  isWhiteSpace a = false -> exists y, drop_ws (s ++ [a]) = y ++ [a].
Proof.
  intros Ha. induction s as [|c s [y IH]]; simpl.
  - rewrite Ha. exists []. reflexivity.
  - destruct (isWhiteSpace c).
    + exists y. exact IH.
    + exists (c :: s). reflexivity.
Qed.

(** A trimmed string is empty, or starts and ends with characters that are
    not white space. *)
Lemma trim_ends s :
  trim s = []
  \/ (exists a r, trim s = a :: r /\ isWhiteSpace a = false)
     /\ (exists m c, trim s = m ++ [c] /\ isWhiteSpace c = false).
Proof.
  unfold trim. destruct (drop_ws_head s) as [E | (a & r & E & Ha)].
  - left. rewrite E. reflexivity.
  - right. rewrite E. simpl rev.
    destruct (drop_ws_snoc (rev r) a Ha) as [y Hy]. rewrite Hy.
    split.
    + rewrite rev_app_distr. simpl. eauto.
    + destruct (drop_ws_head (rev r ++ [a])) as [E2 | (c & v & E2 & Hc)].
      * rewrite Hy in E2. destruct y; discriminate.
      * rewrite <- Hy, E2. simpl. eauto.
Qed.

Lemma split_words_cases line :
  (trim line = [] /\ split_words line = [[]])
  \/ (split_words line <> [] /\ Forall word (split_words line)).
Proof.
  unfold split_words.
  destruct (trim_ends line) as [E | [(a & r & Ea & Ha) (m & c & Ec & Hc)]].
  - left. rewrite E. split; reflexivity.
  - right. split; [apply split_ws_not_nil|].
    assert (Hsf := split_ws_space_free (trim line)).
    destruct (split_ws_closed m c Hc) as [Ht Hh]. rewrite <- Ec in Ht, Hh.
    assert (Hnn := split_ws_not_nil (trim line)).
    destruct (split_ws (trim line)) as [|t ts]; [congruence|].
    simpl in Ht, Hh. inversion Hsf; subst.
    constructor.
    + split; [|assumption]. intros ->.
      destruct (Hh eq_refl) as (a' & r' & -> & Ha').
      rewrite Ec in Ea. simpl in Ea. inversion Ea; subst. congruence.
    + rewrite Forall_forall in *. intros w Hw. split; auto.
Qed.

Lemma tokens_cons_space c s :
  isWhiteSpace c = true -> tokens (c :: s) = tokens s.
Proof.
  intros Hc. unfold tokens. simpl. rewrite Hc.
  destruct s as [|d s']; [reflexivity|].
  destruct (isWhiteSpace d); reflexivity.
Qed.

Lemma tokens_hd_tl s :
  tokens s
  = filter (fun t => negb (is_empty t)) [hd [] (split_ws s)]
    ++ filter (fun t => negb (is_empty t)) (tl (split_ws s)).
Proof.
  unfold tokens. assert (Hnn := split_ws_not_nil s).
  destruct (split_ws s) as [|t ts]; [congruence|].
  simpl. destruct (negb (is_empty t)); reflexivity.
Qed.

Lemma split_ws_snoc_space s c :
  isWhiteSpace c = true ->
  hd [] (split_ws (s ++ [c])) = hd [] (split_ws s)
  /\ filter (fun t => negb (is_empty t)) (tl (split_ws (s ++ [c])))
     = filter (fun t => negb (is_empty t)) (tl (split_ws s)).
Proof.
  intros Hc. induction s as [|a s [IHh IHt]].
  - simpl. rewrite Hc. split; reflexivity.
  - change ((a :: s) ++ [c]) with (a :: (s ++ [c])).
    destruct (isWhiteSpace a) eqn:Ha.
    + destruct s as [|d s'].
      * simpl. rewrite Ha, ?Hc. simpl. rewrite ?Hc. split; reflexivity.
      * change ((d :: s') ++ [c]) with (d :: (s' ++ [c])) in *.
        assert (E1 : split_ws (a :: d :: (s' ++ [c]))
                     = if isWhiteSpace d then split_ws (d :: (s' ++ [c]))
                       else [] :: split_ws (d :: (s' ++ [c])))
          by (simpl; rewrite Ha; reflexivity).
        assert (E2 : split_ws (a :: d :: s')
                     = if isWhiteSpace d then split_ws (d :: s')
                       else [] :: split_ws (d :: s'))
          by (simpl; rewrite Ha; reflexivity).
        rewrite E1, E2. destruct (isWhiteSpace d); [split; assumption|].
        cbn [hd tl]. split; [reflexivity|].
        change (tokens (d :: (s' ++ [c])) = tokens (d :: s')).
        rewrite !tokens_hd_tl, IHh, IHt. reflexivity.
    + rewrite !split_ws_cons_word by assumption. cbn [hd tl].
      rewrite IHh. split; [reflexivity | exact IHt].
Qed.

Lemma tokens_snoc_space s c :
  isWhiteSpace c = true -> tokens (s ++ [c]) = tokens s.
Proof.
  intros Hc. destruct (split_ws_snoc_space s c Hc) as [Hh Ht].
  rewrite !tokens_hd_tl, Hh, Ht. reflexivity.
Qed.

Lemma tokens_drop_ws s : tokens (drop_ws s) = tokens s.
Proof.
  induction s as [|c s IH]; simpl; [reflexivity|].
  destruct (isWhiteSpace c) eqn:Hc; [|reflexivity].
  rewrite tokens_cons_space by assumption. exact IH.
Qed.

Lemma tokens_rev_drop_ws r : tokens (rev (drop_ws r)) = tokens (rev r).
Proof.
  induction r as [|c r IH]; simpl; [reflexivity|].
  destruct (isWhiteSpace c) eqn:Hc; [|reflexivity].
  rewrite tokens_snoc_space by assumption. exact IH.
Qed.

Lemma tokens_trim s : tokens (trim s) = tokens s.
Proof.
  unfold trim. rewrite tokens_rev_drop_ws, rev_involutive.
  apply tokens_drop_ws.
Qed.

Lemma at_last_removelast ws w :
  at_last ws = Some w -> ws = removelast ws ++ [w].
Proof.
  induction ws as [|x ws IH]; [discriminate|].
  destruct ws as [|y ws'].
  - simpl. intros E; inversion E; reflexivity.
  - intros E. change (at_last (x :: y :: ws')) with (at_last (y :: ws')) in E.
    change (removelast (x :: y :: ws')) with (x :: removelast (y :: ws')).
    simpl app. f_equal. apply IH. exact E.
Qed.

Lemma split_words_tokens line :
  Forall word (split_words line) -> split_words line = tokens line.
Proof.
  intros Hall. rewrite <- tokens_trim. unfold tokens. fold (split_words line).
  symmetry. apply filter_words. exact Hall.
Qed.

(** The one or two joined entries give back the words they were built from. *)
Lemma halves_tokens words i :
  Forall word words ->
  tokens (join (firstn i words)) ++ tokens (join (skipn i words)) = words.
Proof.
  intros Hall.
  rewrite !tokens_join.
  - apply firstn_skipn.
  - rewrite Forall_forall in *. intros w Hw. apply Hall.
    rewrite <- (firstn_skipn i words). apply in_or_app. right. exact Hw.
  - rewrite Forall_forall in *. intros w Hw. apply Hall.
    rewrite <- (firstn_skipn i words). apply in_or_app. left. exact Hw.
Qed.

Lemma amen_word : word amen.
Proof.
  split; [discriminate|]. repeat constructor.
Qed.

(** C10. [splitBalanced] returns one, two or three entries; the tokens of the
    entries, taken in order, are exactly the tokens of the input line; and a
    line whose only token is the amen marker gives the empty string followed
    by the marker. *)
Theorem splitBalanced_keeps_tokens (line : jsstring) :
  (1 <= List.length (splitBalanced line) <= 3)%nat
  /\ List.concat (map tokens (splitBalanced line)) = tokens line
  /\ (tokens line = [amen] -> splitBalanced line = [[]; amen]).
Proof.
  split; [|split].
  - unfold splitBalanced.
    destruct (ends_with_amen (split_words line));
      match goal with |- context [(?n <? 2)%nat] => destruct (n <? 2)%nat end;
      simpl; lia.
  - destruct (split_words_cases line) as [[Et Es] | [Hnn Hall]].
    + rewrite <- tokens_trim, Et. unfold splitBalanced. rewrite Es. reflexivity.
    + rewrite <- (split_words_tokens line Hall).
      unfold splitBalanced.
      destruct (ends_with_amen (split_words line)) eqn:Ham.
      * unfold ends_with_amen in Ham.
        destruct (at_last (split_words line)) as [w|] eqn:El; [|discriminate].
        apply str_eqb_eq in Ham. subst w.
        apply at_last_removelast in El.
        cbv zeta. set (words := removelast (split_words line)) in *.
        clearbody words. rewrite El in *.
        assert (Hw : Forall word words).
        { apply Forall_app in Hall. tauto. }
        destruct (List.length words <? 2)%nat; cbn [map List.concat app];
          rewrite app_nil_r.
        -- rewrite tokens_join by assumption. reflexivity.
        -- rewrite app_assoc, halves_tokens by assumption. reflexivity.
      * cbv zeta.
        destruct (List.length (split_words line) <? 2)%nat;
          cbn [map List.concat app]; rewrite app_nil_r.
        -- rewrite tokens_join by assumption. reflexivity.
        -- rewrite halves_tokens by assumption. reflexivity.
  - intros Htok.
    destruct (split_words_cases line) as [[Et Es] | [Hnn Hall]].
    + rewrite <- tokens_trim, Et in Htok. discriminate.
    + rewrite <- (split_words_tokens line Hall) in Htok.
      unfold splitBalanced. rewrite Htok. reflexivity.
Qed.

(** A line that holds the amen marker between blanks. *)
Lemma splitBalanced_keeps_tokens_witness :
  tokens (js "  아멘 ") = [amen] /\ splitBalanced (js "  아멘 ") = [[]; amen].
Proof.
  assert (H : tokens (js "  아멘 ") = [amen]) by reflexivity.
  split; [exact H|].
  exact (proj2 (proj2 (splitBalanced_keeps_tokens (js "  아멘 "))) H).
Defined.

(** ** Further properties of the segmenter *)

Lemma trim_idempotent s : trim (trim s) = trim s.
Proof.
  destruct (trim_ends s) as [E | [(a & r & Ea & Ha) (m & c & Ec & Hc)]].
  - rewrite E. reflexivity.
  - assert (E : a :: r = m ++ [c]) by congruence.
    rewrite Ea. unfold trim. simpl drop_ws. rewrite Ha, E.
    rewrite rev_app_distr. simpl. rewrite Hc. simpl.
    rewrite rev_involutive. reflexivity.
Qed.

Lemma segment_loop_trim (lines : list jsstring) :
  forall segments buffer,
    segment_loop (map trim lines) segments buffer
    = segment_loop lines segments buffer.
Proof.
  induction lines as [|l lines IH]; intros segments buffer; simpl;
    [reflexivity|].
  rewrite trim_idempotent.
  destruct (is_empty (trim l)).
  - destruct (flush segments buffer). apply IH.
  - destruct (str_eqb (trim l) interlude).
    + destruct (flush segments buffer). apply IH.
    + destruct (List.length (buffer ++ [trim l]) =? 2)%nat; apply IH.
Qed.

(** X1. White space around a line does not matter to [segmentLyrics]:
    trimming every line first gives the same segments. *)
Theorem segmentLyrics_trim_insensitive (lines : list jsstring) :
  segmentLyrics (map trim lines) = segmentLyrics lines.
Proof. apply segment_loop_trim. Qed.

Lemma well_shaped_size seg :
  well_shaped seg -> (1 <= List.length seg <= 2)%nat.
Proof. intros [-> | [[H|H] _]]; simpl; lia. Qed.

Lemma segmentLyrics_shape (lines : list jsstring) :
  Forall well_shaped (segmentLyrics lines).
Proof. apply segment_loop_shape; simpl; auto. Qed.

Lemma segmentLyrics_concat (lines : list jsstring) :
  List.concat (segmentLyrics lines) = non_empty_lines lines.
Proof. unfold segmentLyrics. rewrite segment_loop_concat. reflexivity. Qed.

Lemma non_empty_lines_nil (lines : list jsstring) :
  non_empty_lines lines = [] <-> Forall blank lines.
Proof.
  unfold non_empty_lines, blank.
  induction lines as [|l lines IH]; simpl.
  - split; constructor.
  - destruct (is_empty (trim l)) eqn:E; simpl.
    + rewrite IH. split; [intros H; constructor; assumption|].
      intros H; inversion H; assumption.
    + split; [discriminate|]. intros H; inversion H; congruence.
Qed.

(** X2. [segmentLyrics] returns no segment at all exactly when every line
    is empty once trimmed (the empty list of lines included), and no
    segment it returns is empty. *)
Theorem segmentLyrics_empty_iff_blank (lines : list jsstring) :
  (segmentLyrics lines = [] <-> Forall blank lines)
  /\ Forall (fun seg => seg <> []) (segmentLyrics lines).
Proof.
  assert (Hne : Forall (fun seg => seg <> []) (segmentLyrics lines)).
  { eapply Forall_impl; [|apply segmentLyrics_shape].
    intros seg Hs E. apply well_shaped_size in Hs. subst seg. simpl in Hs. lia. }
  split; [|exact Hne].
  rewrite <- non_empty_lines_nil, <- segmentLyrics_concat.
  split; [intros ->; reflexivity|].
  intros Hc. destruct (segmentLyrics lines) as [|seg segs]; [reflexivity|].
  inversion Hne; subst. simpl in Hc. apply app_eq_nil in Hc. tauto.
Qed.

Lemma concat_length_bounds (segs : list (list jsstring)) :
  Forall (fun seg => (1 <= List.length seg <= 2)%nat) segs ->
  (List.length segs <= List.length (List.concat segs)
   <= 2 * List.length segs)%nat.
Proof.
  induction 1 as [|seg segs Hs _ IH]; simpl; [lia|].
  rewrite length_app. lia.
Qed.

(** X3. With [n] lines that are not empty once trimmed, [segmentLyrics]
    returns at least [n/2] (rounded up) and at most [n] segments. *)
Theorem segmentLyrics_count (lines : list jsstring) :
  (List.length (segmentLyrics lines) <= List.length (non_empty_lines lines)
   <= 2 * List.length (segmentLyrics lines))%nat.
Proof.
  rewrite <- segmentLyrics_concat. apply concat_length_bounds.
  eapply Forall_impl; [|apply segmentLyrics_shape].
  intros seg. apply well_shaped_size.
Qed.

Lemma segment_loop_prefix (l x y : list jsstring) :
  (forall segments buffer,
      segment_loop x segments buffer = segment_loop y segments buffer) ->
  forall segments buffer,
    segment_loop (l ++ x) segments buffer
    = segment_loop (l ++ y) segments buffer.
Proof.
  intros Hxy. induction l as [|a l IH]; intros segments buffer; simpl;
    [apply Hxy|].
  destruct (is_empty (trim a)).
  - destruct (flush segments buffer). apply IH.
  - destruct (str_eqb (trim a) interlude).
    + destruct (flush segments buffer). apply IH.
    + destruct (List.length (buffer ++ [trim a]) =? 2)%nat; apply IH.
Qed.

(** X4. Blank lines only separate: a blank line that follows a blank line,
    one at the very start and one at the very end change nothing in the
    segments. *)
Theorem segmentLyrics_blank_lines (l1 l2 : list jsstring) (b b' : jsstring) :
  blank b -> blank b' ->
  segmentLyrics (l1 ++ b' :: b :: l2) = segmentLyrics (l1 ++ b' :: l2)
  /\ segmentLyrics (b :: l2) = segmentLyrics l2
  /\ segmentLyrics (l1 ++ [b]) = segmentLyrics l1.
Proof.
  unfold blank. intros Hb Hb'. split; [|split].
  - apply segment_loop_prefix. intros segments buffer. simpl.
    rewrite Hb', Hb. destruct buffer; reflexivity.
  - unfold segmentLyrics. simpl. rewrite Hb. reflexivity.
  - rewrite <- (app_nil_r l1) at 2. apply segment_loop_prefix.
    intros segments buffer. simpl. rewrite Hb. destruct buffer; reflexivity.
Qed.

(** Two verses separated by two blank lines, with a blank line in front and
    one behind. *)
Lemma segmentLyrics_blank_lines_witness :
  blank (js "  ") /\ blank (js "")
  /\ segmentLyrics ([js "A"] ++ js "" :: js "  " :: [js "B"])
     = segmentLyrics ([js "A"] ++ js "" :: [js "B"])
  /\ segmentLyrics (js "  " :: [js "B"]) = segmentLyrics [js "B"]
  /\ segmentLyrics ([js "A"] ++ [js "  "]) = segmentLyrics [js "A"].
Proof.
  assert (H1 : blank (js "  ")) by reflexivity.
  assert (H2 : blank (js "")) by reflexivity.
  split; [exact H1|]. split; [exact H2|].
  exact (segmentLyrics_blank_lines [js "A"] [js "B"] (js "  ") (js "") H1 H2).
Defined.

(** ** Further properties of [splitBalanced] *)

(** The words of a line are its tokens, or the one empty word when it has
    none. *)
Lemma split_words_of_tokens line :
  split_words line
  = match tokens line with [] => [[]] | _ :: _ => tokens line end.
Proof.
  destruct (split_words_cases line) as [[Et Es] | [Hnn Hall]].
  - rewrite <- tokens_trim, Et, Es. reflexivity.
  - rewrite <- (split_words_tokens line Hall).
    destruct (split_words line); [congruence | reflexivity].
Qed.

(** X5. [splitBalanced] looks at the tokens only: two lines with the same
    tokens, however they are spaced, give the same entries. *)
Theorem splitBalanced_spacing_insensitive (line1 line2 : jsstring) :
  tokens line1 = tokens line2 -> splitBalanced line1 = splitBalanced line2.
Proof.
  intros H. unfold splitBalanced.
  rewrite (split_words_of_tokens line1), (split_words_of_tokens line2), H.
  reflexivity.
Qed.

Lemma splitBalanced_spacing_insensitive_witness :
  tokens (js "  aa   bb cc ") = tokens (js "aa bb cc")
  /\ splitBalanced (js "  aa   bb cc ") = splitBalanced (js "aa bb cc").
Proof.
  assert (H : tokens (js "  aa   bb cc ") = tokens (js "aa bb cc"))
    by reflexivity.
  split; [exact H|].
  exact (splitBalanced_spacing_insensitive
           (js "  aa   bb cc ") (js "aa bb cc") H).
Defined.

Lemma join_tokens_join ws : Forall word ws -> join (tokens (join ws)) = join ws.
Proof. intros H. rewrite tokens_join by assumption. reflexivity. Qed.

Lemma Forall_word_firstn i ws : Forall word ws -> Forall word (firstn i ws).
Proof.
  rewrite !Forall_forall. intros H w Hw. apply H.
  rewrite <- (firstn_skipn i ws). apply in_or_app. left. exact Hw.
Qed.

Lemma Forall_word_skipn i ws : Forall word ws -> Forall word (skipn i ws).
Proof.
  rewrite !Forall_forall. intros H w Hw. apply H.
  rewrite <- (firstn_skipn i ws). apply in_or_app. right. exact Hw.
Qed.

(** The entries built from a list of words. *)
Lemma balanced_entries_normal words marker e :
  Forall word words ->
  (marker = [] \/ marker = [amen]) ->
  In e ((if (List.length words <? 2)%nat then [join words]
         else [join (firstn (best_split words) words);
               join (skipn (best_split words) words)]) ++ marker) ->
  join (tokens e) = e.
Proof.
  intros Hw Hm Hin. apply in_app_or in Hin. destruct Hin as [Hin | Hin].
  - destruct (List.length words <? 2)%nat; simpl in Hin.
    + destruct Hin as [<- | []]. apply join_tokens_join; assumption.
    + destruct Hin as [<- | [<- | []]]; apply join_tokens_join;
        [apply Forall_word_firstn | apply Forall_word_skipn]; assumption.
  - destruct Hm as [-> | ->]; [destruct Hin|].
    destruct Hin as [<- | []]. reflexivity.
Qed.

(** X6. Every entry [splitBalanced] returns is normalised: it has no white
    space at either end and exactly one space between two tokens, that is,
    it is its own tokens joined by single spaces. *)
Theorem splitBalanced_entries_normalised (line e : jsstring) :
  In e (splitBalanced line) -> join (tokens e) = e.
Proof.
  destruct (split_words_cases line) as [[Et Es] | [Hnn Hall]].
  - unfold splitBalanced. rewrite Es. simpl. intros [<- | []]. reflexivity.
  - unfold splitBalanced.
    destruct (ends_with_amen (split_words line)) eqn:Ham; cbv zeta.
    + unfold ends_with_amen in Ham.
      destruct (at_last (split_words line)) as [w|] eqn:El; [|discriminate].
      apply str_eqb_eq in Ham. subst w. apply at_last_removelast in El.
      set (words := removelast (split_words line)) in *. clearbody words.
      rewrite El in Hall. apply Forall_app in Hall. destruct Hall as [Hw _].
      intros Hin.
      apply (balanced_entries_normal words [amen] e Hw); [right; reflexivity|].
      destruct (List.length words <? 2)%nat; exact Hin.
    + intros Hin.
      apply (balanced_entries_normal (split_words line) [] e Hall);
        [left; reflexivity|].
      rewrite app_nil_r. exact Hin.
Qed.

Lemma splitBalanced_entries_normalised_witness :
  In (js "aa bb") (splitBalanced (js "  aa   bb cc dddd "))
  /\ join (tokens (js "aa bb")) = js "aa bb".
Proof.
  assert (H : In (js "aa bb") (splitBalanced (js "  aa   bb cc dddd ")))
    by (left; reflexivity).
  split; [exact H|].
  exact (splitBalanced_entries_normalised
           (js "  aa   bb cc dddd ") (js "aa bb") H).
Defined.

(** ** The lyrics pipeline of [renderLyrics] *)

Lemma split_on_not_nil sep s : split_on sep s <> [].
Proof.
  induction s as [|c s IH]; simpl; [discriminate|].
  destruct (c =? sep)%N; [discriminate|].
  destruct (split_on sep s); discriminate.
Qed.

(** Splitting at a separator and joining around it gives the text back. *)
Lemma join_on_split_on sep s : join_on sep (split_on sep s) = s.
Proof.
  induction s as [|c s IH]; simpl; [reflexivity|].
  destruct (c =? sep)%N eqn:E.
  - apply N.eqb_eq in E. subst c.
    assert (Hnn := split_on_not_nil sep s).
    destruct (split_on sep s) as [|l ls]; [congruence|].
    change (join_on sep ([] :: l :: ls)) with (sep :: join_on sep (l :: ls)).
    rewrite IH. reflexivity.
  - destruct (split_on sep s) as [|l ls].
    + simpl in IH. subst s. reflexivity.
    + destruct ls as [|l' ls']; simpl in *; rewrite IH; reflexivity.
Qed.

Lemma split_ws_space_cons c d s :
  isWhiteSpace c = true ->
  split_ws (c :: d :: s)
  = if isWhiteSpace d then split_ws (d :: s) else [] :: split_ws (d :: s).
Proof. intros Hc. simpl. rewrite Hc. reflexivity. Qed.

Lemma split_ws_space_hd c s :
  isWhiteSpace c = true -> hd [] (split_ws (c :: s)) = [].
Proof.
  revert c. induction s as [|d s IH]; intros c Hc.
  - simpl. rewrite Hc. reflexivity.
  - rewrite split_ws_space_cons by exact Hc.
    destruct (isWhiteSpace d) eqn:Hd; [|reflexivity].
    apply IH. exact Hd.
Qed.

(** White space inside a string separates the tokens on its two sides. *)
Lemma split_ws_app_space a b c :
  isWhiteSpace c = true ->
  hd [] (split_ws (a ++ c :: b)) = hd [] (split_ws a)
  /\ filter (fun t => negb (is_empty t)) (tl (split_ws (a ++ c :: b)))
     = filter (fun t => negb (is_empty t)) (tl (split_ws a)) ++ tokens b.
Proof.
  intros Hc.
  assert (Hbase : hd [] (split_ws (c :: b)) = []
                  /\ filter (fun t => negb (is_empty t)) (tl (split_ws (c :: b)))
                     = tokens b).
  { split; [apply split_ws_space_hd; exact Hc|].
    destruct b as [|d b'].
    - simpl. rewrite Hc. reflexivity.
    - assert (E : split_ws (c :: d :: b')
                  = if isWhiteSpace d then split_ws (d :: b')
                    else [] :: split_ws (d :: b'))
        by (simpl; rewrite Hc; reflexivity).
      rewrite E. destruct (isWhiteSpace d) eqn:Hd; [|reflexivity].
      rewrite (tokens_hd_tl (d :: b')), split_ws_space_hd by exact Hd.
      reflexivity. }
  induction a as [|x a [IHh IHt]].
  - simpl app. destruct Hbase as [Hh Ht]. rewrite Hh, Ht. split; reflexivity.
  - change ((x :: a) ++ c :: b) with (x :: (a ++ c :: b)).
    destruct (isWhiteSpace x) eqn:Hx.
    + destruct a as [|y a'].
      * simpl app in *.
        assert (E : split_ws (x :: c :: b) = split_ws (c :: b))
          by (simpl; rewrite Hx, Hc; reflexivity).
        rewrite E. destruct Hbase as [Hh Ht]. rewrite Hh, Ht.
        simpl. rewrite Hx. split; reflexivity.
      * change ((y :: a') ++ c :: b) with (y :: (a' ++ c :: b)) in *.
        assert (E1 : split_ws (x :: y :: (a' ++ c :: b))
                     = if isWhiteSpace y then split_ws (y :: (a' ++ c :: b))
                       else [] :: split_ws (y :: (a' ++ c :: b)))
          by (simpl; rewrite Hx; reflexivity).
        assert (E2 : split_ws (x :: y :: a')
                     = if isWhiteSpace y then split_ws (y :: a')
                       else [] :: split_ws (y :: a'))
          by (simpl; rewrite Hx; reflexivity).
        rewrite E1, E2. destruct (isWhiteSpace y); [split; assumption|].
        cbn [hd tl]. split; [reflexivity|].
        change (tokens (y :: (a' ++ c :: b)) = tokens (y :: a') ++ tokens b).
        rewrite (tokens_hd_tl (y :: (a' ++ c :: b))), (tokens_hd_tl (y :: a')).
        rewrite IHh, IHt, app_assoc. reflexivity.
    + rewrite !split_ws_cons_word by assumption. cbn [hd tl].
      rewrite IHh. split; [reflexivity | exact IHt].
Qed.

Lemma tokens_app_space a b c :
  isWhiteSpace c = true -> tokens (a ++ c :: b) = tokens a ++ tokens b.
Proof.
  intros Hc. destruct (split_ws_app_space a b c Hc) as [Hh Ht].
  rewrite (tokens_hd_tl (a ++ c :: b)), (tokens_hd_tl a), Hh, Ht, app_assoc.
  reflexivity.
Qed.

Lemma tokens_join_on sep ls :
  isWhiteSpace sep = true ->
  tokens (join_on sep ls) = List.concat (map tokens ls).
Proof.
  intros Hsep. induction ls as [|l ls IH]; [reflexivity|].
  destruct ls as [|l' ls'].
  - simpl. rewrite app_nil_r. reflexivity.
  - change (join_on sep (l :: l' :: ls'))
      with (l ++ sep :: join_on sep (l' :: ls')).
    rewrite tokens_app_space by exact Hsep. rewrite IH. reflexivity.
Qed.

Lemma lyric_lines_tokens headline :
  List.concat (map tokens (lyric_lines headline)) = tokens headline.
Proof.
  unfold lyric_lines.
  rewrite <- (tokens_join_on 10%N) by reflexivity.
  rewrite join_on_split_on. reflexivity.
Qed.

Lemma non_empty_lines_tokens lines :
  List.concat (map tokens (non_empty_lines lines))
  = List.concat (map tokens lines).
Proof.
  unfold non_empty_lines. induction lines as [|l lines IH]; [reflexivity|].
  simpl. destruct (is_empty (trim l)) eqn:E; simpl; rewrite IH.
  - rewrite <- (tokens_trim l). destruct (trim l); [reflexivity|discriminate].
  - rewrite tokens_trim. reflexivity.
Qed.


Lemma balanced_entries_tokens words :
  Forall word words ->
  List.concat (map tokens
     (if (List.length words <? 2)%nat then [join words]
      else [join (firstn (best_split words) words);
            join (skipn (best_split words) words)])) = words.
Proof.
  intros Hw. destruct (List.length words <? 2)%nat;
    cbn [map List.concat app]; rewrite app_nil_r.
  - apply tokens_join; assumption.
  - apply halves_tokens; assumption.
Qed.

Lemma splitBalanced_tokens line :
  List.concat (map tokens (splitBalanced line)) = tokens line.
Proof.
  destruct (split_words_cases line) as [[Et Es] | [Hnn Hall]].
  - rewrite <- tokens_trim, Et. unfold splitBalanced. rewrite Es. reflexivity.
  - rewrite <- (split_words_tokens line Hall). unfold splitBalanced.
    destruct (ends_with_amen (split_words line)) eqn:Ham; cbv zeta.
    + unfold ends_with_amen in Ham.
      destruct (at_last (split_words line)) as [w|] eqn:El; [|discriminate].
      apply str_eqb_eq in Ham. subst w. apply at_last_removelast in El.
      set (words := removelast (split_words line)) in *. clearbody words.
      rewrite El in *. apply Forall_app in Hall. destruct Hall as [Hw _].
      destruct (List.length words <? 2)%nat; cbn [map List.concat app];
        rewrite app_nil_r.
      * rewrite tokens_join by assumption. reflexivity.
      * rewrite app_assoc, halves_tokens by assumption. reflexivity.
    + apply balanced_entries_tokens. exact Hall.
Qed.

Lemma group_parts_tokens group :
  List.concat (map tokens (group_parts group))
  = List.concat (map tokens group).
Proof.
  unfold group_parts. induction group as [|l group IH]; [reflexivity|].
  simpl. rewrite map_app, concat_app, IH, splitBalanced_tokens. reflexivity.
Qed.

Lemma parts_tokens (segments : list (list jsstring)) :
  List.concat (map tokens (List.concat (map group_parts segments)))
  = List.concat (map tokens (List.concat segments)).
Proof.
  induction segments as [|g segments IH]; [reflexivity|].
  simpl. rewrite !map_app, !concat_app, IH, group_parts_tokens. reflexivity.
Qed.

(** X7. The lyrics pipeline of the hall renderer shows every word of the
    headline exactly once and in order: the tokens of the parts of all
    blocks, read block by block, are the tokens of the headline. *)
Theorem lyric_parts_keep_words (headline : jsstring) :
  List.concat (map tokens (List.concat (lyric_parts headline)))
  = tokens headline.
Proof.
  unfold lyric_parts.
  rewrite parts_tokens, segmentLyrics_concat, non_empty_lines_tokens.
  apply lyric_lines_tokens.
Qed.




End LyricsFacts.

(* ===================================================================== *)
(** * Properties of the text-fit loop *)
(* ===================================================================== *)

Module TextFitFacts.
Import TextFit.

Local Open Scope Z_scope.

Lemma set_fontSize_twice a b el :
  set_fontSize a (set_fontSize b el) = set_fontSize a el.
Proof. reflexivity. Qed.

Lemma set_fontSize_same el : set_fontSize (fontSize el) el = el.
Proof. destruct el; reflexivity. Qed.

(** One off a whole number of pixels is the whole number below. *)
Lemma decrement_px (k : Z) : decrement (px k) = px (k - 1).
Proof.
  unfold decrement, px, inject_Z, Qminus, Qplus, Qopp. cbn.
  f_equal. lia.
Qed.

Lemma px_lt (m k : Z) : (px m < px k)%Q -> m < k.
Proof. unfold px. rewrite <- Zlt_Qlt. trivial. Qed.

Lemma px_le (m k : Z) : (px k <= px m)%Q -> k <= m.
Proof. unfold px. rewrite <- Zle_Qle. trivial. Qed.

Lemma shrink_loop_post el font minFont :
  forall k m : Z,
    font = px k -> minFont = px m -> m <= k -> fontSize el = font ->
    loop_post el k m (shrink_loop el font minFont).
Proof.
  funelim (shrink_loop el font minFont); intros k m Hk Hm Hle Hfont;
    unfold loop_post; cbn [fst snd].
  - (* the floor is reached *)
    assert (Hkm : k <= m) by (apply px_le; rewrite <- Hk, <- Hm; assumption).
    exists k. rewrite <- Hk, <- Hfont, !set_fontSize_same.
    split; [reflexivity|]. split; [reflexivity|]. split; [lia|].
    split; [left; lia|]. intros f Hf. lia.
  - (* overflow above the floor: one step down *)
    assert (Hmk : m < k) by (apply px_lt; rewrite <- Hk, <- Hm; assumption).
    assert (Hdec : decrement font = px (k - 1))
      by (rewrite Hk; apply decrement_px).
    match goal with
    | IH : forall k m : Z, _ -> _ -> _ -> _ -> loop_post _ _ _ _ |- _ =>
        destruct (IH (k - 1) m Hdec Hm ltac:(lia) eq_refl)
          as (r & Hsnd & Hel & Hr & Hstop & Hover)
    end.
    cbn [fst snd] in Hsnd, Hel. rewrite set_fontSize_twice in *.
    exists r. split; [exact Hsnd|]. split; [exact Hel|]. split; [lia|].
    split; [exact Hstop|].
    intros f Hf. destruct (Z.eq_dec f k) as [->|Hne].
    + rewrite <- Hk, <- Hfont, set_fontSize_same. assumption.
    + specialize (Hover f). rewrite set_fontSize_twice in Hover.
      apply Hover. lia.
  - (* the content fits *)
    assert (Hmk : m < k) by (apply px_lt; rewrite <- Hk, <- Hm; assumption).
    exists k. rewrite <- Hk, <- Hfont, !set_fontSize_same.
    split; [reflexivity|]. split; [reflexivity|]. split; [lia|].
    split; [right; assumption|]. intros f Hf. lia.
Qed.

(** C8, amended.  For whole-pixel bounds with [minFont <= maxFont],
    [autoShrinkFont] leaves a whole-pixel font size between the two bounds;
    when the content fits at some whole-pixel size in that range, it fits at
    the size left and at no larger whole-pixel size of the range; when it
    fits at no whole-pixel size of the range, the size left is [minFont].
    The fit is the source's test: neither scroll extent exceeds the visible
    box.  The bounds are integers that a double holds, so that every
    [font--] of the run is exact; no assumption is made on how overflow
    varies with the size. *)
Theorem autoShrinkFont_largest_fit (el : element) (maxFont minFont : Z) :
  whole_pixels maxFont -> whole_pixels minFont -> minFont <= maxFont ->
  exists r : Z,
    fontSize (autoShrinkFont el (px maxFont) (px minFont)) = px r
    /\ minFont <= r <= maxFont
    /\ ((exists f, minFont <= f <= maxFont /\ fits el (px f)) ->
        fits el (px r)
        /\ forall f, minFont <= f <= maxFont -> fits el (px f) -> f <= r)
    /\ ((forall f, minFont <= f <= maxFont -> ~ fits el (px f)) ->
        r = minFont).
Proof.
  intros _ _ Hle.
  pose (el2 := set_fontSize (px maxFont) (set_overflow "visible" el)).
  destruct (shrink_loop_post el2 (px maxFont) (px minFont) maxFont minFont
              eq_refl eq_refl Hle eq_refl)
    as (r & Hsnd & Hel & Hr & Hstop & Hover).
  exists r.
  assert (Er : fontSize (autoShrinkFont el (px maxFont) (px minFont)) = px r).
  { unfold autoShrinkFont. cbv zeta. fold el2. rewrite Hel. reflexivity. }
  assert (Hat : forall f, overflows (set_fontSize f el2)
                          = overflows (set_fontSize f (set_overflow "visible" el)))
    by reflexivity.
  assert (Hlargest : forall f, minFont <= f <= maxFont ->
                               fits el (px f) -> f <= r).
  { intros f Hf Hfit. destruct (Z_le_gt_dec f r) as [|Hgt]; [assumption|].
    unfold fits in Hfit. rewrite <- Hat in Hfit.
    rewrite Hover in Hfit; [discriminate | lia]. }
  split; [exact Er|]. split; [exact Hr|]. split.
  - intros (f & Hf & Hfit). split; [|exact Hlargest].
    destruct Hstop as [Hmin | Hfits].
    + assert (f = r) by (specialize (Hlargest f Hf Hfit); lia). subst f.
      exact Hfit.
    + unfold fits. rewrite <- Hat. exact Hfits.
  - intros Hnone. destruct Hstop as [Hmin | Hfits]; [exact Hmin|].
    exfalso. apply (Hnone r Hr). unfold fits. rewrite <- Hat. exact Hfits.
Qed.

(** From 80 down to 16 on the sample element, the size left is 30. *)
Lemma autoShrinkFont_largest_fit_witness :
  whole_pixels 80 /\ whole_pixels 16 /\ 16 <= 80
  /\ fontSize (autoShrinkFont sample_element (px 80) (px 16)) = px 30
  /\ exists r : Z,
       fontSize (autoShrinkFont sample_element (px 80) (px 16)) = px r
       /\ 16 <= r <= 80.
Proof.
  assert (H80 : whole_pixels 80) by (vm_compute; split; discriminate).
  assert (H16 : whole_pixels 16) by (vm_compute; split; discriminate).
  assert (H : 16 <= 80) by lia.
  split; [exact H80|]. split; [exact H16|]. split; [exact H|].
  split; [reflexivity|].
  destruct (autoShrinkFont_largest_fit sample_element 80 16 H80 H16 H)
    as (r & Hr & Hb & _).
  exists r. split; [exact Hr | exact Hb].
Defined.

(** The content of the crowded element overflows at every size, and so at
    every larger size. *)
Lemma crowded_element_monotone : monotone crowded_element.
Proof. intros f g _ _. reflexivity. Qed.

(** C8 as the text-fit engine states it fails on fractional bounds: from
    20.5 with a floor of 16, on content that never fits, the loop passes
    19.5, 18.5, 17.5, 16.5 and stops at 15.5, below the floor. *)
Lemma autoShrinkFont_below_floor :
  fontSize (autoShrinkFont crowded_element (41 # 2) 16) = (31 # 2)%Q
  /\ (31 # 2 < 16)%Q
  /\ ~ largest_fit_for_any_bounds.
Proof.
  split; [reflexivity|]. split; [reflexivity|].
  intros Hclaim.
  destruct (Hclaim crowded_element (41 # 2)%Q 16%Q crowded_element_monotone)
    as (_ & _ & Hfloor); [discriminate|].
  assert (Hnone : forall f : Q, (16 <= f <= 41 # 2)%Q ->
                                ~ fits crowded_element f)
    by (intros f _ Hfit; discriminate Hfit).
  specialize (Hfloor Hnone). discriminate Hfloor.
Qed.

(** ** Whatever the bounds *)

Lemma shrink_loop_frame el font minFont :
  fontSize el = font ->
  fst (shrink_loop el font minFont)
  = set_fontSize (snd (shrink_loop el font minFont)) el.
Proof.
  funelim (shrink_loop el font minFont); intros Hfont; cbn [fst snd].
  - rewrite <- Hfont, set_fontSize_same. reflexivity.
  - match goal with
    | IH : _ -> _ = _ |- _ => rewrite IH by reflexivity
    end.
    reflexivity.
  - rewrite <- Hfont, set_fontSize_same. reflexivity.
Qed.

(** With the floor at or above the starting size the loop does not run. *)
Lemma shrink_loop_at_floor el font minFont :
  (font <= minFont)%Q -> shrink_loop el font minFont = (el, font).
Proof.
  intros Hle. funelim (shrink_loop el font minFont); try reflexivity; lra.
Qed.

(** X9. For two whole-pixel bounds, in either order, [autoShrinkFont]
    leaves the overflow style at "visible", does not restore it, leaves the
    layout alone, and leaves a whole-pixel font size that is at most
    [maxFont] and at least the smaller of the two bounds; so with [maxFont]
    at or below [minFont] the size is [maxFont]: the loop only ever
    shrinks. *)
Theorem autoShrinkFont_frame (el : element) (maxFont minFont : Z) :
  whole_pixels maxFont -> whole_pixels minFont ->
  exists r : Z,
    fontSize (autoShrinkFont el (px maxFont) (px minFont)) = px r
    /\ Z.min maxFont minFont <= r <= maxFont
    /\ overflow (autoShrinkFont el (px maxFont) (px minFont))
       = "visible"%string
    /\ layout (autoShrinkFont el (px maxFont) (px minFont)) = layout el.
Proof.
  intros _ _. unfold autoShrinkFont. cbv zeta.
  set (el2 := set_fontSize (px maxFont) (set_overflow "visible" el)).
  destruct (Z_le_gt_dec maxFont minFont) as [Hle | Hgt].
  - exists maxFont. rewrite shrink_loop_at_floor
      by (unfold px; rewrite <- Zle_Qle; exact Hle).
    cbn [fst]. repeat split; try reflexivity; lia.
  - destruct (shrink_loop_post el2 (px maxFont) (px minFont) maxFont minFont
                eq_refl eq_refl ltac:(lia) eq_refl)
      as (r & _ & Hel & Hr & _).
    exists r. rewrite Hel. repeat split; try reflexivity; lia.
Qed.

(** With the bounds the wrong way round, 16 and 80, the size left is 16. *)
Lemma autoShrinkFont_frame_witness :
  whole_pixels 16 /\ whole_pixels 80
  /\ fontSize (autoShrinkFont crowded_element (px 16) (px 80)) = px 16
  /\ exists r : Z,
       fontSize (autoShrinkFont crowded_element (px 16) (px 80)) = px r
       /\ Z.min 16 80 <= r <= 16.
Proof.
  assert (H80 : whole_pixels 80) by (vm_compute; split; discriminate).
  assert (H16 : whole_pixels 16) by (vm_compute; split; discriminate).
  split; [exact H16|]. split; [exact H80|]. split; [reflexivity|].
  destruct (autoShrinkFont_frame crowded_element 16 80 H16 H80)
    as (r & Hr & Hb & _).
  exists r. split; [exact Hr | exact Hb].
Defined.

(** X10. Fitting an element that was just fitted with the same bounds
    changes nothing. *)
Theorem autoShrinkFont_idempotent (el : element) (maxFont minFont : Q) :
  autoShrinkFont (autoShrinkFont el maxFont minFont) maxFont minFont
  = autoShrinkFont el maxFont minFont.
Proof.
  unfold autoShrinkFont. cbv zeta.
  rewrite (shrink_loop_frame
             (set_fontSize maxFont (set_overflow "visible" el))
             maxFont minFont eq_refl) at 1.
  reflexivity.
Qed.

End TextFitFacts.

(* ===================================================================== *)
(** * Properties of the seek actions *)
(* ===================================================================== *)

Module VideoFacts.
Import Video.

Local Open Scope Q_scope.

Lemma or_else_time (t : Q) :
  0 <= t -> exists u, or_else (Fin t) (Fin 0) = Fin u /\ u == t.
Proof.
  intros Ht. unfold or_else, truthy.
  destruct (Qeq_bool t 0) eqn:E; simpl.
  - apply Qeq_bool_iff in E. exists 0. split; [reflexivity|]. lra.
  - exists t. split; [reflexivity|]. lra.
Qed.

Lemma Qmax_eq a b c d : a == c -> b == d -> Qmax a b == Qmax c d.
Proof.
  intros H1 H2.
  destruct (Q.max_spec a b) as [[? ->]|[? ->]];
    destruct (Q.max_spec c d) as [[? ->]|[? ->]]; lra.
Qed.

Lemma Qmin_eq a b c d : a == c -> b == d -> Qmin a b == Qmin c d.
Proof.
  intros H1 H2.
  destruct (Q.min_spec a b) as [[? ->]|[? ->]];
    destruct (Q.min_spec c d) as [[? ->]|[? ->]]; lra.
Qed.

(** C9, as the code has it.  From a playback time [t >= 0], seek-back sets
    the time to [max(0, t - 5)]; seek-forward sets it to [min(d, t + 5)] when
    the duration [d] is truthy (neither 0 nor NaN), and to [t + 5], with no
    clamp, when the duration is 0 or NaN: the source replaces such a duration
    by [Infinity]. *)
Theorem seek_clamped (v : video) (t : Q) :
  currentTime v = Fin t -> 0 <= t ->
  num_eq (seek_back v) (clamped_back t)
  /\ (truthy (duration v) = true ->
      num_eq (seek_forward v) (clamped_forward t (duration v)))
  /\ (truthy (duration v) = false ->
      num_eq (seek_forward v) (Fin (t + 5))).
Proof.
  intros Ht Hpos. unfold seek_back, seek_forward, clamped_back, clamped_forward.
  cbn [controls_click String.eqb Ascii.eqb Bool.eqb currentTime set_currentTime].
  rewrite Ht. destruct (or_else_time t Hpos) as (u & -> & Hu).
  split; [|split].
  - simpl. apply Qmax_eq; lra.
  - intros Hd. unfold or_else at 1. rewrite Hd.
    destruct (duration v) as [| | |d]; simpl; try exact I; try lra.
    apply Qmin_eq; lra.
  - intros Hd. unfold or_else at 1. rewrite Hd. simpl. lra.
Qed.

(** The theorem at the six-second clip. *)
Lemma seek_clamped_witness :
  currentTime short_clip = Fin (7 # 2) /\ 0 <= 7 # 2
  /\ truthy (duration short_clip) = true
  /\ num_eq (seek_back short_clip) (Fin 0)
  /\ num_eq (seek_forward short_clip) (Fin 6).
Proof.
  assert (H1 : currentTime short_clip = Fin (7 # 2)) by reflexivity.
  assert (H2 : 0 <= 7 # 2) by (unfold Qle; simpl; lia).
  assert (H3 : truthy (duration short_clip) = true) by reflexivity.
  destruct (seek_clamped short_clip (7 # 2) H1 H2) as (Hb & Hf & _).
  split; [exact H1|]. split; [exact H2|]. split; [exact H3|].
  split; [exact Hb | exact (Hf H3)].
Defined.

(** That fails before the metadata is loaded: the duration is [NaN], and a
    forward seek from 0 sets the time to 5, which is not [min(NaN, 5)]; it
    fails as well for a duration of 0, where the time is set to 5 and not
    to 0. *)
Lemma seek_forward_unclamped :
  seek_forward fresh_video = Fin 5
  /\ ~ num_eq (seek_forward fresh_video)
               (clamped_forward 0 (duration fresh_video))
  /\ seek_forward empty_clip = Fin 5
  /\ ~ num_eq (seek_forward empty_clip) (clamped_forward 0 (Fin 0))
  /\ ~ always_clamped.
Proof.
  split; [reflexivity|]. split; [simpl; tauto|].
  split; [reflexivity|]. split; [vm_compute; discriminate|].
  intros H.
  destruct (H fresh_video 0 eq_refl ltac:(unfold Qle; simpl; lia)) as [_ Hf].
  exact Hf.
Qed.

(** ** Seeking stays within the media, whatever the rounding *)

Lemma rounded_id (x : number) : rounded (fun q => q) x = x.
Proof. destruct x; reflexivity. Qed.

(** With nothing rounded, the handler is [controls_click]. *)
Lemma controls_click_rounded_id (target : option string) (v : video) :
  controls_click_rounded (fun q => q) target v = controls_click target v.
Proof.
  unfold controls_click_rounded, controls_click. rewrite !rounded_id.
  reflexivity.
Qed.

Lemma monotone_rounding_compat (round : Q -> Q) (x y : Q) :
  monotone_rounding round -> x == y -> round x == round y.
Proof.
  intros Hmono Hxy.
  assert (H1 : round x <= round y) by (apply Hmono; lra).
  assert (H2 : round y <= round x) by (apply Hmono; lra).
  lra.
Qed.

Lemma round_down_1024_monotone : monotone_rounding round_down_1024.
Proof.
  intros x y Hxy. unfold round_down_1024.
  assert (H : (Qfloor (x * 1024) <= Qfloor (y * 1024))%Z)
    by (apply Qfloor_resp_le; lra).
  rewrite Zle_Qle in H.
  apply Qmult_le_compat_r; [exact H | cbv; discriminate].
Qed.

(** X12. From a playback time [t >= 0] that lies within the media, each
    seek moves the time in its own direction and keeps it within the media,
    however the sum and the difference are rounded, as long as the rounding
    is monotone and leaves [t], a double already, alone: back gives a time
    between 0 and [t]; forward gives a time at or after [t], and at or
    before the duration when that is a number other than 0. *)
Theorem seek_stays_in_media (round : Q -> Q) (v : video) (t : Q) :
  monotone_rounding round -> round t == t ->
  currentTime v = Fin t -> 0 <= t -> within t (duration v) ->
  (exists b, currentTime (controls_click_rounded round (Some "back"%string) v)
             = Fin b
             /\ 0 <= b /\ b <= t)
  /\ (exists f, currentTime (controls_click_rounded round (Some "fwd"%string) v)
                = Fin f
                /\ t <= f
                /\ forall d, duration v = Fin d -> ~ d == 0 -> f <= d).
Proof.
  intros Hmono Hfix Ht Hpos Hin.
  cbn [controls_click_rounded String.eqb Ascii.eqb Bool.eqb currentTime
       set_currentTime].
  rewrite Ht. destruct (or_else_time t Hpos) as (u & -> & Hu).
  assert (Hu' : round u == t)
    by (rewrite (monotone_rounding_compat round u t Hmono Hu); exact Hfix).
  split.
  - cbn [sub neg add rounded Math_max].
    eexists. split; [reflexivity|].
    assert (Hdown : round (u + - (5)) <= round u) by (apply Hmono; lra).
    destruct (Q.max_spec 0 (round (u + - (5)))) as [[? Hm]|[? Hm]];
      rewrite Hm; lra.
  - cbn [add rounded].
    assert (Hup : round u <= round (u + 5)) by (apply Hmono; lra).
    unfold or_else. destruct (duration v) as [| | |d] eqn:Ed; cbn [truthy].
    + cbn [Math_min]. eexists. split; [reflexivity|].
      split; [lra | intros d' Hd'; discriminate].
    + cbn [Math_min]. eexists. split; [reflexivity|].
      split; [lra | intros d' Hd'; discriminate].
    + contradiction.
    + cbn [within] in Hin. destruct (Qeq_bool d 0) eqn:E0; cbn [negb].
      * apply Qeq_bool_iff in E0. cbn [Math_min].
        eexists. split; [reflexivity|].
        split; [lra|]. intros d' Hd' Hne. inversion Hd'; subst d'.
        contradiction.
      * cbn [Math_min]. eexists. split; [reflexivity|].
        destruct (Q.min_spec d (round (u + 5))) as [[? Hm]|[? Hm]];
          rewrite Hm; (split; [lra|]);
          intros d' Hd' _; inversion Hd'; subst d'; lra.
Qed.

(** The six-second clip at 3.5 s, with the times rounded down to 1/1024 s:
    the forward seek ends at the duration. *)
Lemma seek_stays_in_media_witness :
  round_down_1024 (7 # 2) == 7 # 2
  /\ currentTime short_clip = Fin (7 # 2) /\ 0 <= 7 # 2
  /\ within (7 # 2) (duration short_clip)
  /\ exists f, currentTime (controls_click_rounded round_down_1024
                              (Some "fwd"%string) short_clip) = Fin f
               /\ 7 # 2 <= f /\ f <= 6.
Proof.
  assert (H0 : round_down_1024 (7 # 2) == 7 # 2) by reflexivity.
  assert (H1 : currentTime short_clip = Fin (7 # 2)) by reflexivity.
  assert (H2 : 0 <= 7 # 2) by (unfold Qle; simpl; lia).
  assert (H3 : within (7 # 2) (duration short_clip))
    by (cbv; discriminate).
  split; [exact H0|]. split; [exact H1|]. split; [exact H2|].
  split; [exact H3|].
  destruct (seek_stays_in_media round_down_1024 short_clip (7 # 2)
              round_down_1024_monotone H0 H1 H2 H3)
    as (_ & f & Hf & Hge & Hle).
  exists f. split; [exact Hf|]. split; [exact Hge|].
  apply (Hle 6); [reflexivity | cbv; discriminate].
Defined.

(** ** The visibility of the controls *)

Lemma showControls_ok (c : controls) : controls_ok c -> controls_ok (showControls c).
Proof.
  intros [Hn Hc]. split; [simpl; lia|]. right. exists (next_handle c).
  assert (Hclear : clear_hideTimer c = []).
  { unfold clear_hideTimer.
    destruct Hc as [(Hp & _) | (h & Hp & Hh & Hpos & _)].
    - rewrite Hp. destruct (hideTimer c) as [h|]; [|reflexivity].
      destruct (h =? 0)%nat; reflexivity.
    - rewrite Hh, Hp. destruct (h =? 0)%nat eqn:E.
      + apply Nat.eqb_eq in E. lia.
      + simpl. rewrite Nat.eqb_refl. reflexivity. }
  simpl. rewrite Hclear. repeat split; lia.
Qed.

Lemma mouseleave_ok (c : controls) : controls_ok c -> controls_ok (mouseleave c).
Proof.
  intros [Hn Hc]. split; [exact Hn|]. left. simpl.
  split; [|split; reflexivity].
  unfold clear_hideTimer.
  destruct Hc as [(Hp & _) | (h & Hp & Hh & Hpos & _)].
  - rewrite Hp. destruct (hideTimer c) as [h|]; [|reflexivity].
    destruct (h =? 0)%nat; reflexivity.
  - rewrite Hh, Hp. destruct (h =? 0)%nat eqn:E.
    + apply Nat.eqb_eq in E. lia.
    + simpl. rewrite Nat.eqb_refl. reflexivity.
Qed.

Lemma ui_step_ok (e : ui_event) (c : controls) :
  controls_ok c -> controls_ok (ui_step e c).
Proof.
  intros H. destruct e as [| | |target|h]; simpl.
  - apply showControls_ok; exact H.
  - apply showControls_ok; exact H.
  - apply mouseleave_ok; exact H.
  - destruct target; [apply showControls_ok|]; exact H.
  - destruct (existsb (Nat.eqb h) (pending c)) eqn:E; [|exact H].
    destruct H as [Hn Hc]. split; [exact Hn|]. left. simpl.
    split; [|split; reflexivity].
    destruct Hc as [(Hp & _) | (k & Hp & _)]; rewrite Hp in *.
    + discriminate.
    + simpl in E. rewrite orb_false_r in E. apply Nat.eqb_eq in E. subst k.
      simpl. rewrite Nat.eqb_refl. reflexivity.
Qed.

(** X13. Whatever the mouse does and whenever the hide timers fire, the
    controls of a video are either hidden with no hide timer pending, or
    shown with exactly one pending, the one [hideTimer] holds: controls that
    are shown always have the timer that will hide them, and never two. *)
Theorem controls_always_ok (es : list ui_event) (n : nat) :
  controls_ok (ui_run es (initial_controls n)).
Proof.
  assert (H : forall c, controls_ok c -> controls_ok (ui_run es c)).
  { unfold ui_run. induction es as [|e es IH]; intros c Hc; simpl; [exact Hc|].
    apply IH, ui_step_ok, Hc. }
  apply H. split; [simpl; lia|]. left. repeat split.
Qed.

End VideoFacts.

(* ===================================================================== *)
(** * Properties of the dispatcher *)
(* ===================================================================== *)

Module DispatcherFacts.
Import Dispatcher.

Local Open Scope string_scope.

(** ** Malformed input *)

Section Properties.

Variable number : Type.
Variable Number_toString : number -> string.
Variable JSON_parse : string -> option (json number).
Variable render : variant -> renderer -> json number -> page -> completion.

Let dispatch' := dispatch Number_toString render.
Let on_raw' := on_raw Number_toString JSON_parse render.

(** C5. A raw message that [JSON.parse] rejects is logged and dropped: the
    callback returns normally, whatever the renderers are, and the page it
    leaves has the container contents, class and visibility (and the cover
    background) it had before; only one console line is added. *)
Theorem malformed_json_keeps_slide (v : variant) (raw : string) (p : page) :
  JSON_parse raw = None ->
  exists msg,
    on_raw' v raw p = Normal (console_error msg p)
    /\ innerHTML (console_error msg p) = innerHTML p
    /\ className (console_error msg p) = className p
    /\ display (console_error msg p) = display p
    /\ coverBackground (console_error msg p) = coverBackground p
    /\ console (console_error msg p) = (console p ++ [msg])%list.
Proof.
  intros Hparse. unfold on_raw', on_raw. rewrite Hparse.
  eexists. split; [reflexivity|]. repeat split.
Qed.

(** ** The fallback *)

Lemma get_renderMap_unknown (v : variant) (key : string) :
  own_key v key = false -> inherited_key key = false ->
  get_renderMap v key = Undefined.
Proof.
  unfold own_key, inherited_key, get_renderMap.
  destruct (assoc key (renderMap v)); [discriminate|]. intros _ H.
  apply orb_false_iff in H. destruct H as [-> ->]. reflexivity.
Qed.

Lemma lookup_blank_payload (v : variant) :
  lookup_style Number_toString v (blank_payload number)
  = Some (RenderFn renderBlank).
Proof. destruct v; reflexivity. Qed.

(** C4, as the code has it.  For a parsed payload other than [null] whose
    style value converts to a property key, when that key is neither an own
    key of the renderer table nor a name the table inherits from
    [Object.prototype], the dispatcher selects [renderBlank] and returns
    normally with the page [clearScreen] leaves, which is also what the
    payload with style "blank" produces; and the payload [null] ends the
    dispatcher with a [TypeError] on either surface. *)
Theorem unknown_style_renders_blank
    (v : variant) (data : json number) (style : option (json number))
    (key : string) (p : page) :
  get_style data = Some style ->
  ToPropertyKey Number_toString style = Some key ->
  own_key v key = false ->
  inherited_key key = false ->
  selected Number_toString v data = Some (RenderFn renderBlank)
  /\ dispatch' v data p = Normal (clearScreen v p)
  /\ dispatch' v data p = dispatch' v (blank_payload number) p
  /\ dispatch' v JNull p = TypeError p.
Proof.
  intros Hstyle Hkey Hown Hinh.
  assert (Hlook : lookup_style Number_toString v data = Some Undefined).
  { unfold lookup_style. rewrite Hstyle, Hkey.
    rewrite get_renderMap_unknown by assumption. reflexivity. }
  assert (Hdisp : dispatch' v data p = Normal (clearScreen v p)).
  { unfold dispatch', dispatch. destruct v;
      unfold dispatch_hall, dispatch_obs; rewrite Hlook; reflexivity. }
  split; [unfold selected; rewrite Hlook; reflexivity|].
  split; [exact Hdisp|]. split.
  - rewrite Hdisp. unfold dispatch', dispatch. destruct v;
      unfold dispatch_hall, dispatch_obs; rewrite lookup_blank_payload;
      reflexivity.
  - destruct v; reflexivity.
Qed.

End Properties.

(** The style "nonexistent" on the hall surface. *)
Lemma unknown_style_renders_blank_witness :
  own_key Hall "nonexistent" = false
  /\ inherited_key "nonexistent" = false
  /\ run Hall (JObj [("style", JStr "nonexistent")]) lyrics_page
     = Normal (clearScreen Hall lyrics_page).
Proof.
  assert (H1 : own_key Hall "nonexistent" = false) by reflexivity.
  assert (H2 : inherited_key "nonexistent" = false) by reflexivity.
  split; [exact H1|]. split; [exact H2|].
  exact (proj1 (proj2 (unknown_style_renders_blank Z decimal idle_render
           Hall (JObj [("style", JStr "nonexistent")])
           (Some (JStr "nonexistent")) "nonexistent" lyrics_page
           eq_refl eq_refl H1 H2))).
Defined.

(** A message that is not JSON, on the OBS surface. *)
Lemma malformed_json_keeps_slide_witness :
  exists msg,
    on_raw decimal parse_literal idle_render Obs "{not json" lyrics_page
    = Normal (console_error msg lyrics_page).
Proof.
  destruct (malformed_json_keeps_slide Z decimal parse_literal idle_render
              Obs "{not json" lyrics_page eq_refl) as (msg & H & _).
  exists msg. exact H.
Defined.

(** It fails on the payload [null], which [JSON.parse] produces from the
    message [null]: reading [data.style] throws on both surfaces. *)
Lemma null_payload_throws :
  run Hall JNull lyrics_page = TypeError lyrics_page
  /\ run Obs JNull lyrics_page = TypeError lyrics_page
  /\ ~ fallback_never_throws.
Proof.
  split; [reflexivity|]. split; [reflexivity|].
  intros H.
  specialize (H Z decimal idle_render Hall JNull lyrics_page).
  assert (Hpre : forall (style : option (json Z)) (key : string),
             get_style (@JNull Z) = Some style ->
             ToPropertyKey decimal style = Some key ->
             own_key Hall key = false)
    by (intros style key Hs; discriminate Hs).
  specialize (H Hpre). discriminate H.
Qed.

(** Names inherited from [Object.prototype] are found by the lookup and so
    bypass the fallback: the style "toString" calls a built-in that returns
    without touching the page, and the style "__proto__" yields an object
    that cannot be called. *)
Lemma inherited_names_bypass_fallback :
  run Hall (JObj [("style", JStr "toString")]) lyrics_page
  = Normal lyrics_page
  /\ run Obs (JObj [("style", JStr "toString")]) lyrics_page
     = Normal lyrics_page
  /\ run Hall (JObj [("style", JStr "__proto__")]) lyrics_page
     = TypeError lyrics_page
  /\ run Obs (JObj [("style", JStr "__proto__")]) lyrics_page
     = TypeError lyrics_page.
Proof. repeat split. Qed.

(** ** Known styles, and what the two surfaces share *)


Lemma inherited_key_cases (key : string) :
  inherited_key key = true ->
  In key ("__proto__" :: Object_prototype_methods).
Proof.
  unfold inherited_key. intros H. apply orb_true_iff in H.
  destruct H as [H | H].
  - right. apply existsb_exists in H. destruct H as (k & Hin & Hk).
    apply String.eqb_eq in Hk. subst k. exact Hin.
  - left. apply String.eqb_eq in H. symmetry. exact H.
Qed.

Section Selection.

Variable number : Type.
Variable Number_toString : number -> string.
Variable render : variant -> renderer -> json number -> page -> completion.


(** X15. A payload whose style is an own key of the table reaches the
    renderer stored under that key, with the parsed payload and the page
    unchanged; for the key "blank" that is [clearScreen]. *)
Theorem known_style_invokes_renderer
    (v : variant) (data : json number) (style : option (json number))
    (key : string) (r : renderer) (p : page) :
  get_style data = Some style ->
  ToPropertyKey Number_toString style = Some key ->
  assoc key (renderMap v) = Some r ->
  dispatch Number_toString render v data p
  = match r with
    | renderBlank => Normal (clearScreen v p)
    | _ => render v r data p
    end.
Proof.
  intros Hs Hk Hr.
  assert (Hl : lookup_style Number_toString v data = Some (RenderFn r)).
  { unfold lookup_style, get_renderMap. rewrite Hs, Hk, Hr. reflexivity. }
  destruct v; simpl; unfold dispatch_hall, dispatch_obs; rewrite Hl;
    destruct r; reflexivity.
Qed.

(** X16. A style that names a member every object inherits is not treated
    as unknown: the lookup finds the inherited member, so neither
    [renderBlank] nor any other renderer runs, the page is left exactly as
    it was, and the handler either returns or ends with a [TypeError]. *)
Theorem inherited_style_leaves_page
    (v : variant) (data : json number) (style : option (json number))
    (key : string) (p : page) :
  get_style data = Some style ->
  ToPropertyKey Number_toString style = Some key ->
  inherited_key key = true ->
  own_key v key = false
  /\ (dispatch Number_toString render v data p = Normal p
      \/ dispatch Number_toString render v data p = TypeError p).
Proof.
  intros Hs Hk Hin. apply inherited_key_cases in Hin.
  assert (Hl : lookup_style Number_toString v data
               = Some (get_renderMap v key)).
  { unfold lookup_style. rewrite Hs, Hk. reflexivity. }
  unfold dispatch, dispatch_hall, dispatch_obs.
  simpl in Hin.
  repeat (destruct Hin as [<- | Hin];
          [destruct v; rewrite Hl;
           (split; [reflexivity | (left; reflexivity) || (right; reflexivity)])
          |]).
  destruct Hin.
Qed.

End Selection.

(** The style "verse" on the OBS surface. *)
Lemma known_style_invokes_renderer_witness :
  assoc "verse" (renderMap Obs) = Some renderVerse
  /\ run Obs (JObj [("style", JStr "verse"); ("headline", JStr "text")])
         lyrics_page
     = idle_render Obs renderVerse
         (JObj [("style", JStr "verse"); ("headline", JStr "text")])
         lyrics_page.
Proof.
  assert (H : assoc "verse" (renderMap Obs) = Some renderVerse) by reflexivity.
  split; [exact H|].
  exact (known_style_invokes_renderer Z decimal idle_render Obs
           (JObj [("style", JStr "verse"); ("headline", JStr "text")])
           (Some (JStr "verse")) "verse" renderVerse lyrics_page
           eq_refl eq_refl H).
Defined.


(** The style "hasOwnProperty" on the hall surface. *)
Lemma inherited_style_leaves_page_witness :
  inherited_key "hasOwnProperty" = true
  /\ own_key Hall "hasOwnProperty" = false
  /\ (run Hall (JObj [("style", JStr "hasOwnProperty")]) lyrics_page
      = Normal lyrics_page
      \/ run Hall (JObj [("style", JStr "hasOwnProperty")]) lyrics_page
         = TypeError lyrics_page).
Proof.
  assert (H : inherited_key "hasOwnProperty" = true) by reflexivity.
  split; [exact H|].
  exact (inherited_style_leaves_page Z decimal idle_render Hall
           (JObj [("style", JStr "hasOwnProperty")])
           (Some (JStr "hasOwnProperty")) "hasOwnProperty" lyrics_page
           eq_refl eq_refl H).
Defined.

End DispatcherFacts.

(* ===================================================================== *)
(** * Properties of the transport *)
(* ===================================================================== *)

Module TransportFacts.
Import Transport.

Local Open Scope string_scope.
Local Open Scope list_scope.

Lemma cancel_In h l t : In t (cancel h l) -> In t l.
Proof.
  destruct h as [n|]; simpl; [|tauto]. intros H.
  apply filter_In in H. tauto.
Qed.

Lemma cancel_gone h l t : In t (cancel (Some h) l) -> handle t <> h.
Proof.
  simpl. intros H. apply filter_In in H. destruct H as [_ H].
  apply negb_true_iff, Nat.eqb_neq in H. exact H.
Qed.

Lemma cancel_Forall (P : timer -> Prop) h l :
  Forall P l -> Forall P (cancel h l).
Proof.
  rewrite !Forall_forall. intros H t Ht. apply H.
  eapply cancel_In; eassumption.
Qed.

(** A handle that no pending timer carries cancels nothing. *)
Lemma cancel_absent h l :
  (forall t, In t l -> Some (handle t) <> h) -> cancel h l = l.
Proof.
  destruct h as [n|]; simpl; [|reflexivity]. intros H.
  induction l as [|t l IH]; simpl; [reflexivity|].
  destruct (handle t =? n)%nat eqn:E; simpl.
  - apply Nat.eqb_eq in E. exfalso. apply (H t); [left; reflexivity|].
    congruence.
  - f_equal. apply IH. intros t' Ht'. apply H. right. exact Ht'.
Qed.


Lemma wf_same c c' :
  timers c' = timers c -> next_handle c' = next_handle c ->
  pingTimer c' = pingTimer c -> pongTimeout c' = pongTimeout c ->
  wf c -> wf c'.
Proof.
  unfold wf, known. intros -> -> -> ->. tauto.
Qed.

Lemma wf_clearTimer h c : wf c -> wf (clearTimer h c).
Proof.
  unfold wf, known. simpl. intros (Ht & Hp & Hq).
  split; [apply cancel_Forall; exact Ht | tauto].
Qed.

Lemma wf_schedule rep j ms c :
  wf c ->
  wf (snd (schedule rep j ms c))
  /\ wf (set_pingTimer (Some (fst (schedule rep j ms c)))
                       (snd (schedule rep j ms c)))
  /\ wf (set_pongTimeout (Some (fst (schedule rep j ms c)))
                         (snd (schedule rep j ms c))).
Proof.
  unfold wf, known. simpl. intros (Ht & Hp & Hq).
  assert (Hall : Forall (fun t => (handle t < S (next_handle c))%nat)
                   (timers c ++ [{| handle := next_handle c; delay := ms;
                                    repeats := rep; job := j |}])).
  { apply Forall_app. split.
    - eapply Forall_impl; [|exact Ht]. simpl. intros; lia.
    - constructor; [simpl; lia | constructor]. }
  destruct (pingTimer c), (pongTimeout c); repeat split; auto; lia.
Qed.

Lemma wf_update_ws f c : wf c -> wf (update_ws f c).
Proof.
  unfold update_ws. destruct (ws c); [|tauto].
  apply wf_same; reflexivity.
Qed.

Lemma wf_connectWebSocket v cb c : wf c -> wf (connectWebSocket v cb c).
Proof.
  unfold connectWebSocket. destruct (busy v c); [tauto|].
  apply wf_same; reflexivity.
Qed.

Lemma wf_send_ping c : wf c -> wf (send_ping c).
Proof.
  unfold send_ping. destruct (ws_open c); [|tauto]. intros H.
  apply (wf_update_ws (fun s => {| state := state s; listener := listener s;
                                   outbox := (outbox s ++ ["ping"])%list |}))
    in H.
  exact (proj2 (proj2 (wf_schedule false PongMissing 5000 _ H))).
Qed.

Lemma wf_onopen c : wf c -> wf (onopen c).
Proof.
  intros H. unfold onopen.
  refine (proj1 (proj2 (wf_schedule true SendPing 30000 _ _))).
  revert H. apply wf_same; reflexivity.
Qed.

Lemma wf_onclose v cb c : wf c -> wf (onclose v cb c).
Proof.
  intros H. unfold onclose.
  match goal with |- context [set_connecting false ?x] =>
    assert (H1 : wf (set_connecting false x))
      by (revert H; apply wf_same; reflexivity)
  end.
  destruct v.
  - apply wf_schedule. apply wf_clearTimer, wf_clearTimer. exact H1.
  - apply wf_clearTimer, wf_clearTimer. apply wf_schedule. exact H1.
Qed.

Lemma wf_onmessage cb d c : wf c -> wf (onmessage cb d c).
Proof.
  unfold onmessage. destruct (is_pong d).
  - apply wf_clearTimer.
  - apply wf_same; reflexivity.
Qed.

Lemma wf_step v e c : wf c -> wf (step v e c).
Proof.
  intros H. destruct e as [cb | i | i | i | i d | h]; simpl.
  - apply wf_connectWebSocket; exact H.
  - destruct (option_map state (nth_error (sockets c) i)) as [[]|]; try exact H.
    apply wf_onopen. revert H. apply wf_same; reflexivity.
  - destruct (nth_error (sockets c) i); [|exact H].
    revert H. apply wf_same; reflexivity.
  - destruct (nth_error (sockets c) i) as [s|]; [|exact H].
    destruct (state s); try exact H; apply wf_onclose;
      revert H; apply wf_same; reflexivity.
  - destruct (nth_error (sockets c) i) as [s|]; [|exact H].
    destruct (state s); try exact H. apply wf_onmessage; exact H.
  - destruct (find (fun t => (handle t =? h)%nat) (timers c)) as [t|];
      [|exact H].
    assert (H1 : wf (if repeats t then c else clearTimer (Some h) c))
      by (destruct (repeats t); [exact H | apply wf_clearTimer; exact H]).
    destruct (job t); simpl.
    + apply wf_send_ping; exact H1.
    + unfold pong_missing. apply wf_update_ws.
      revert H1. apply wf_same; reflexivity.
    + apply wf_connectWebSocket; exact H1.
Qed.

Lemma wf_initial : wf initial.
Proof. unfold wf, known. simpl. repeat split; constructor. Qed.

(** Every state the client can reach satisfies the invariant. *)
Lemma wf_run v es : forall c, wf c -> wf (run v es c).
Proof.
  unfold run. induction es as [|e es IH]; simpl; intros c H; [exact H|].
  apply IH, wf_step, H.
Qed.

(** ** The guard of [connectWebSocket] *)

(** The OBS file returns at once while an attempt is in progress or the
    socket is open. *)
Lemma connect_obs_noop (onMessage : callback) (c : client) :
  connecting c = true \/ ws_open c = true ->
  connectWebSocket Obs onMessage c = c.
Proof.
  intros H. unfold connectWebSocket, busy.
  destruct H as [-> | ->]; [reflexivity | rewrite orb_true_r; reflexivity].
Qed.

(** The hall file returns at once while an attempt is in progress. *)
Lemma connect_hall_noop (onMessage : callback) (c : client) :
  connecting c = true -> connectWebSocket Hall onMessage c = c.
Proof. intros H. unfold connectWebSocket, busy. rewrite H. reflexivity. Qed.

(** C1 on the hall file.  With the socket open and no attempt in progress, a
    call of the hall [connectWebSocket] is not a no-op: it sets the flag and
    replaces [ws] by a second socket, the first one staying open; the OBS
    function leaves the same state untouched. *)
Lemma hall_connect_while_open :
  connecting (connected Hall) = false
  /\ ws_open (connected Hall) = true
  /\ ws (connected Hall) = Some 0%nat
  /\ ws (connectWebSocket Hall main (connected Hall)) = Some 1%nat
  /\ connecting (connectWebSocket Hall main (connected Hall)) = true
  /\ map state (sockets (connectWebSocket Hall main (connected Hall)))
     = [OPEN; CONNECTING]
  /\ connectWebSocket Hall main (connected Hall) <> connected Hall
  /\ connectWebSocket Obs main (connected Obs) = connected Obs.
Proof.
  repeat split; try reflexivity.
  intros H. apply (f_equal ws) in H. discriminate H.
Qed.

(** ** Inbound messages *)

Lemma is_pong_iff (d : payload) : is_pong d = true <-> d = Text "pong".
Proof.
  destruct d as [s|b]; simpl.
  - rewrite String.eqb_eq. split; [intros ->; reflexivity|].
    intros E; inversion E; reflexivity.
  - split; discriminate.
Qed.

(** C2. A message event on an open socket runs [onmessage] with the callback
    the socket was created with.  If the data is exactly the string "pong",
    the timer whose handle is in [pongTimeout] is cancelled, every other
    pending timer stays, and the callback is not called; when the only
    deadline timers pending are under that handle, none is pending
    afterwards; any other data,
    text or binary, is passed to the callback unchanged, in one call, and
    nothing else changes.  Both files have the same handler. *)
Theorem message_pong_or_forward
    (v : variant) (i : nat) (s : socket) (d : payload) (c : client) :
  nth_error (sockets c) i = Some s -> state s = OPEN ->
  let c' := step v (Message i d) c in
  (d = Text "pong" ->
     c' = clearTimer (pongTimeout c) c
     /\ forwarded c' = forwarded c
     /\ (forall t, In t (timers c') -> Some (handle t) <> pongTimeout c)
     /\ (forall t, In t (timers c) -> Some (handle t) <> pongTimeout c ->
                   In t (timers c'))
     /\ ((forall t, In t (timers c) -> job t = PongMissing ->
                     Some (handle t) = pongTimeout c) ->
         forall t, In t (timers c') -> job t <> PongMissing))
  /\ (d <> Text "pong" ->
      c' = forward (listener s) d c
      /\ forwarded c' = forwarded c ++ [(listener s, d)]
      /\ timers c' = timers c).
Proof.
  intros Hs Hopen c'.
  assert (E : c' = onmessage (listener s) d c).
  { unfold c'. simpl. rewrite Hs, Hopen. reflexivity. }
  rewrite E. unfold onmessage. split.
  - intros Hd. apply is_pong_iff in Hd. rewrite Hd.
    assert (Hgone : forall t, In t (cancel (pongTimeout c) (timers c)) ->
                              Some (handle t) <> pongTimeout c).
    { intros t Ht. destruct (pongTimeout c) as [h|]; [|discriminate].
      apply cancel_gone in Ht. congruence. }
    split; [reflexivity|]. split; [reflexivity|]. simpl.
    split; [exact Hgone|]. split.
    + intros t Ht Hne. destruct (pongTimeout c) as [h|]; [|exact Ht].
      simpl. apply filter_In. split; [exact Ht|].
      apply negb_true_iff, Nat.eqb_neq. congruence.
    + intros Hone t Ht Hjob. apply (Hgone t Ht).
      apply Hone; [eapply cancel_In; exact Ht | exact Hjob].
  - intros Hd. destruct (is_pong d) eqn:Hp.
    + apply is_pong_iff in Hp. contradiction.
    + repeat split.
Qed.

(** After the first ping: a pong cancels the deadline timer and leaves the
    interval; a JSON message reaches the callback. *)
Lemma message_pong_or_forward_witness :
  let c := run Hall [Fire 1] (connected Hall) in
  nth_error (sockets c) 0 = Some {| state := OPEN; listener := main;
                                    outbox := ["ping"] |}
  /\ pongTimeout c = Some 2%nat
  /\ map handle (timers c) = [1%nat; 2%nat]
  /\ map handle (timers (step Hall (Message 0 (Text "pong")) c)) = [1%nat]
  /\ forwarded (step Hall (Message 0 (Text "{}")) c) = [(main, Text "{}")].
Proof.
  intros c.
  assert (Hs : nth_error (sockets c) 0
               = Some {| state := OPEN; listener := main; outbox := ["ping"] |})
    by reflexivity.
  destruct (message_pong_or_forward Hall 0 _ (Text "pong") c Hs eq_refl)
    as [Hpong _].
  destruct (message_pong_or_forward Hall 0 _ (Text "{}") c Hs eq_refl)
    as [_ Hfwd].
  split; [exact Hs|]. split; [reflexivity|]. split; [reflexivity|]. split.
  - rewrite (proj1 (Hpong eq_refl)). reflexivity.
  - rewrite (proj1 (proj2 (Hfwd ltac:(discriminate)))). reflexivity.
Defined.

(** ** Close and error events *)




(** ** Repeated calls and message order *)

(** X17. On either surface a call of [connectWebSocket] that directly
    follows another one changes nothing, whichever callbacks are passed:
    the first call has set the flag or had returned at the guard. *)
Theorem connect_twice (v : variant) (cb1 cb2 : callback) (c : client) :
  connectWebSocket v cb2 (connectWebSocket v cb1 c)
  = connectWebSocket v cb1 c.
Proof.
  assert (Hbusy : busy v (connectWebSocket v cb1 c) = true).
  { unfold connectWebSocket. destruct (busy v c) eqn:Hb; [exact Hb|].
    destruct v; reflexivity. }
  unfold connectWebSocket at 1. rewrite Hbusy. reflexivity.
Qed.

Lemma onmessage_sockets cb d c : sockets (onmessage cb d c) = sockets c.
Proof. unfold onmessage. destruct (is_pong d); reflexivity. Qed.

Lemma onmessage_forwarded cb d c :
  forwarded (onmessage cb d c)
  = forwarded c ++ (if is_pong d then [] else [(cb, d)]).
Proof.
  unfold onmessage. destruct (is_pong d); simpl;
    rewrite ?app_nil_r; reflexivity.
Qed.

(** X18. The frames received on an open socket reach the callback in the
    order received, one call per frame, the pongs left out: after any
    sequence of message events the calls made are the earlier ones followed
    by the frames that are not "pong", each with the socket's callback. *)
Theorem messages_forwarded_in_order
    (v : variant) (i : nat) (s : socket) (ds : list payload) (c : client) :
  nth_error (sockets c) i = Some s -> state s = OPEN ->
  forwarded (run v (map (Message i) ds) c)
  = forwarded c
    ++ map (pair (listener s)) (filter (fun d => negb (is_pong d)) ds).
Proof.
  intros Hs Hopen. revert c Hs. unfold run.
  induction ds as [|d ds IH]; intros c Hs; simpl.
  - rewrite app_nil_r. reflexivity.
  - rewrite Hs, Hopen. rewrite IH by (rewrite onmessage_sockets; exact Hs).
    rewrite onmessage_forwarded, <- app_assoc.
    destruct (is_pong d); reflexivity.
Qed.

(** Three frames after the first ping on the hall surface. *)
Lemma messages_forwarded_in_order_witness :
  nth_error (sockets (connected Hall)) 0
  = Some {| state := OPEN; listener := main; outbox := [] |}
  /\ forwarded (run Hall [Message 0 (Text "a"); Message 0 (Text "pong");
                          Message 0 (Text "b")] (connected Hall))
     = [(main, Text "a"); (main, Text "b")].
Proof.
  assert (H : nth_error (sockets (connected Hall)) 0
              = Some {| state := OPEN; listener := main; outbox := [] |})
    by reflexivity.
  split; [exact H|].
  exact (messages_forwarded_in_order Hall 0 _
           [Text "a"; Text "pong"; Text "b"] (connected Hall) H eq_refl).
Defined.

(** ** The heartbeat *)

(** X19. A ping answered by a pong leaves no trace in the timers: in a
    state with fresh timer handles and the socket open, the ping handler
    followed by the message handler on "pong" gives back the pending timers
    there were, calls the callback not at all, and has sent the one frame
    "ping". *)
Theorem ping_then_pong (onMessage : callback) (c : client) :
  wf c -> ws_open c = true ->
  let c' := onmessage onMessage (Text "pong") (send_ping c) in
  timers c' = timers c
  /\ forwarded c' = forwarded c
  /\ sockets c' = sockets (ws_send "ping" c)
  /\ connecting c' = connecting c.
Proof.
  intros (Ht & _ & _) Hopen c'. unfold c', send_ping. rewrite Hopen.
  unfold onmessage. cbn [is_pong String.eqb Ascii.eqb Bool.eqb].
  unfold ws_send, update_ws. destruct (ws c) as [i|] eqn:Ews; simpl.
  - split; [|repeat split]. rewrite filter_app. simpl.
    rewrite Nat.eqb_refl. simpl. rewrite app_nil_r.
    apply (cancel_absent (Some (next_handle c))).
    intros t Hin E. rewrite Forall_forall in Ht. specialize (Ht t Hin).
    inversion E. lia.
  - unfold ws_open, ws_readyState in Hopen. rewrite Ews in Hopen.
    discriminate.
Qed.

(** The connected hall client. *)
Lemma ping_then_pong_witness :
  wf (connected Hall) /\ ws_open (connected Hall) = true
  /\ timers (onmessage main (Text "pong") (send_ping (connected Hall)))
     = timers (connected Hall).
Proof.
  assert (H1 : wf (connected Hall)).
  { unfold wf, known. simpl. repeat split.
    repeat constructor; simpl; lia. lia. }
  assert (H2 : ws_open (connected Hall) = true) by reflexivity.
  split; [exact H1|]. split; [exact H2|].
  exact (proj1 (ping_then_pong main (connected Hall) H1 H2)).
Defined.

(** ** Which events create a socket *)

Lemma length_update_nth {A : Type} (i : nat) (f : A -> A) (l : list A) :
  List.length (update_nth i f l) = List.length l.
Proof.
  revert i. induction l as [|x l IH]; intros [|i]; simpl; auto.
Qed.

Lemma update_ws_sockets f c :
  ws (update_ws f c) = ws c
  /\ List.length (sockets (update_ws f c)) = List.length (sockets c).
Proof.
  unfold update_ws. destruct (ws c) eqn:E; simpl; [|auto].
  rewrite length_update_nth. auto.
Qed.

(** What one event does to [ws] and to the number of sockets: nothing, or,
    when the guard lets a call of [connectWebSocket] through, one socket
    more, which [ws] then designates. *)
Lemma step_sockets (v : variant) (e : event) (c : client) :
  (ws (step v e c) = ws c
   /\ List.length (sockets (step v e c)) = List.length (sockets c))
  \/ (busy v c = false
      /\ ws (step v e c) = Some (List.length (sockets c))
      /\ List.length (sockets (step v e c)) = S (List.length (sockets c))).
Proof.
  assert (Hconnect : forall cb c0,
             ws c0 = ws c -> sockets c0 = sockets c ->
             connecting c0 = connecting c ->
             (ws (connectWebSocket v cb c0) = ws c
              /\ List.length (sockets (connectWebSocket v cb c0))
                 = List.length (sockets c))
             \/ (busy v c = false
                 /\ ws (connectWebSocket v cb c0) = Some (List.length (sockets c))
                 /\ List.length (sockets (connectWebSocket v cb c0))
                    = S (List.length (sockets c)))).
  { intros cb c0 Hw Hs Hc.
    assert (Hb : busy v c0 = busy v c).
    { unfold busy, ws_open, ws_readyState. rewrite Hw, Hs, Hc. reflexivity. }
    unfold connectWebSocket. rewrite Hb. destruct (busy v c).
    - left. rewrite Hw, Hs. auto.
    - right. simpl. rewrite Hs, length_app. simpl.
      split; [reflexivity|]. split; [reflexivity | lia]. }
  destruct e as [cb | i | i | i | i d | h]; simpl.
  - apply Hconnect; reflexivity.
  - left. destruct (option_map state (nth_error (sockets c) i)) as [[]|];
      simpl; rewrite ?length_update_nth; auto.
  - left. destruct (nth_error (sockets c) i); simpl; auto.
  - left. destruct (nth_error (sockets c) i) as [s|]; [|auto].
    destruct (state s); destruct v; simpl; rewrite ?length_update_nth; auto.
  - left. destruct (nth_error (sockets c) i) as [s|]; [|auto].
    destruct (state s); auto. unfold onmessage.
    destruct (is_pong d); simpl; auto.
  - destruct (find (fun t => (handle t =? h)%nat) (timers c)) as [t|];
      [|left; auto].
    destruct (job t) as [| |cb]; simpl.
    + left. unfold send_ping.
      destruct (repeats t); simpl;
        match goal with
        | |- context [ws_open ?x] => destruct (ws_open x); simpl
        end; auto;
        match goal with
        | |- context [ws_send ?m ?x] =>
            destruct (update_ws_sockets
                        (fun s => {| state := state s; listener := listener s;
                                     outbox := outbox s ++ [m] |}) x)
              as [Hw Hl]; unfold ws_send; rewrite Hw, Hl; auto
        end.
    + left. unfold pong_missing, ws_close.
      match goal with
      | |- context [update_ws ?f ?x] =>
          destruct (update_ws_sockets f x) as [Hw Hl]; rewrite Hw, Hl
      end.
      destruct (repeats t); auto.
    + apply Hconnect; destruct (repeats t); reflexivity.
Qed.

(** X20. While the guard of [connectWebSocket] holds (an attempt in
    progress on either surface, or an open socket on the OBS surface), no
    event of the event loop creates a socket or changes [ws]: calls from the
    page and reconnection timers that fire are all turned away. *)
Theorem busy_keeps_socket (v : variant) (e : event) (c : client) :
  busy v c = true ->
  ws (step v e c) = ws c
  /\ List.length (sockets (step v e c)) = List.length (sockets c).
Proof.
  intros Hb. destruct (step_sockets v e c) as [H | [H _]]; [exact H|].
  congruence.
Qed.

(** A second call from the page on the connected OBS client. *)
Lemma busy_keeps_socket_witness :
  busy Obs (connected Obs) = true
  /\ ws (step Obs (Connect main) (connected Obs)) = ws (connected Obs)
  /\ List.length (sockets (step Obs (Connect main) (connected Obs)))
     = List.length (sockets (connected Obs)).
Proof.
  assert (H : busy Obs (connected Obs) = true) by reflexivity.
  split; [exact H|].
  exact (busy_keeps_socket Obs (Connect main) (connected Obs) H).
Defined.

Lemma newest_step v e c : newest c -> newest (step v e c).
Proof.
  unfold newest. intros H.
  destruct (step_sockets v e c) as [[Hw Hl] | (_ & Hw & Hl)]; rewrite Hw.
  - destruct (ws c); [lia|]. rewrite H in Hl. simpl in Hl.
    destruct (sockets (step v e c)); [reflexivity | discriminate].
  - lia.
Qed.

(** X21. In every state the client reaches, [ws] is [undefined] with no
    socket created yet, or designates the socket created last: an older
    socket is never put back, and its handlers, which read [ws], act on the
    newest one. *)
Theorem ws_is_newest (v : variant) (es : list event) :
  newest (run v es initial).
Proof.
  assert (H : forall c, newest c -> newest (run v es c)).
  { unfold run. induction es as [|e es IH]; intros c Hc; simpl; [exact Hc|].
    apply IH, newest_step, Hc. }
  apply H. reflexivity.
Qed.

(** ** The reconnection loop *)

Lemma step_Error v i s c :
  nth_error (sockets c) i = Some s -> step v (Error i) c = onerror c.
Proof. intros H. simpl. rewrite H. reflexivity. Qed.

Lemma step_Close v i s c :
  nth_error (sockets c) i = Some s -> state s <> CLOSED ->
  step v (Close i) c = onclose v (listener s) (set_state i CLOSED c).
Proof.
  intros H Hs. simpl. rewrite H. destruct (state s); congruence.
Qed.

Lemma step_Fire v h t c :
  find (fun t => (handle t =? h)%nat) (timers c) = Some t ->
  step v (Fire h) c
  = run_task v (job t) (if repeats t then c else clearTimer (Some h) c).
Proof. intros H. simpl. rewrite H. reflexivity. Qed.

Lemma nth_error_snoc {A : Type} (l : list A) (x : A) :
  nth_error (l ++ [x]) (List.length l) = Some x.
Proof. induction l; simpl; auto. Qed.

Lemma update_nth_snoc {A : Type} (f : A -> A) (l : list A) (x : A) :
  update_nth (List.length l) f (l ++ [x]) = l ++ [f x].
Proof. induction l; simpl; [reflexivity|]. f_equal. assumption. Qed.

Lemma nth_error_repeat_snoc {A : Type} (x y : A) (n : nat) :
  nth_error (repeat x n ++ [y]) n = Some y.
Proof.
  pose proof (nth_error_snoc (repeat x n) y) as H.
  rewrite repeat_length in H. exact H.
Qed.

Lemma update_nth_repeat_snoc {A : Type} (f : A -> A) (x y : A) (n : nat) :
  update_nth n f (repeat x n ++ [y]) = repeat x n ++ [f y].
Proof.
  pose proof (update_nth_snoc f (repeat x n) y) as H.
  rewrite repeat_length in H. exact H.
Qed.

Lemma repeat_snoc {A : Type} (x : A) (n : nat) :
  repeat x n ++ [x] = repeat x (S n).
Proof. induction n; simpl; [reflexivity|]. f_equal. assumption. Qed.

Lemma failure_round v cb n c :
  attempting cb n c -> attempting cb (S n) (run v (failure n) c).
Proof.
  destruct c as [ws0 conn ping pong socks tms nh fwd cons].
  intros H. unfold attempting in H.
  cbn [ws connecting pingTimer pongTimeout sockets timers next_handle
       forwarded] in H.
  destruct H as (-> & -> & -> & -> & -> & -> & -> & ->).
  set (closed := {| state := CLOSED; listener := cb; outbox := [] |}).
  set (fresh := {| state := CONNECTING; listener := cb; outbox := [] |}).
  unfold run, failure. cbn [fold_left].
  rewrite (step_Error v n fresh)
    by (cbn [sockets]; apply nth_error_repeat_snoc).
  unfold onerror, log, set_connecting.
  cbn [ws connecting pingTimer pongTimeout sockets timers next_handle
       forwarded console].
  rewrite (step_Close v n fresh)
    by (first [discriminate
              | cbn [sockets]; apply nth_error_repeat_snoc]).
  unfold set_state, set_sockets.
  cbn [ws connecting pingTimer pongTimeout sockets timers next_handle
       forwarded console].
  rewrite update_nth_repeat_snoc.
  cbn [state listener outbox fresh]. fold closed. rewrite repeat_snoc.
  assert (Hclose :
    forall l,
      timers (onclose v cb
        {| ws := Some n; connecting := false; pingTimer := None;
           pongTimeout := None; sockets := repeat closed (S n);
           timers := []; next_handle := S n; forwarded := []; console := l |})
      = [{| handle := S n; delay := 3000; repeats := false;
            job := Reconnect cb |}]
      /\ exists l',
        onclose v cb
          {| ws := Some n; connecting := false; pingTimer := None;
             pongTimeout := None; sockets := repeat closed (S n);
             timers := []; next_handle := S n; forwarded := []; console := l |}
        = {| ws := Some n; connecting := false; pingTimer := None;
             pongTimeout := None; sockets := repeat closed (S n);
             timers := [{| handle := S n; delay := 3000; repeats := false;
                           job := Reconnect cb |}];
             next_handle := S (S n); forwarded := []; console := l' |}).
  { intros l. destruct v; (split; [reflexivity | eexists; reflexivity]). }
  destruct (Hclose (cons ++ ["[!] WebSocket error"])) as [Htm [l' Hc]].
  rewrite Hc.
  rewrite (step_Fire v (S n) {| handle := S n; delay := 3000; repeats := false;
                                job := Reconnect cb |})
    by (cbn [timers find handle]; rewrite Nat.eqb_refl; reflexivity).
  cbn [job repeats run_task].
  unfold clearTimer, cancel, set_timers.
  cbn [timers filter handle ws connecting pingTimer pongTimeout
       sockets next_handle forwarded console].
  rewrite Nat.eqb_refl. cbn [negb].
  assert (Hbusy : forall c0,
             ws c0 = Some n -> connecting c0 = false ->
             sockets c0 = repeat closed (S n) -> busy v c0 = false).
  { intros c0 Hw Hcn Hs. unfold busy, ws_open, ws_readyState.
    rewrite Hw, Hcn, Hs.
    assert (E : nth_error (repeat closed (S n)) n = Some closed).
    { rewrite <- repeat_snoc. apply nth_error_repeat_snoc. }
    rewrite E. destruct v; reflexivity. }
  unfold connectWebSocket. rewrite Hbusy by reflexivity.
  unfold attempting, new_WebSocket, set_connecting.
  cbn [ws connecting pingTimer pongTimeout sockets timers next_handle
       forwarded console].
  rewrite repeat_length. repeat split.
Qed.

Lemma failures_S n : failures (S n) = failures n ++ failure n.
Proof.
  unfold failures. rewrite seq_S, flat_map_app. reflexivity.
Qed.

Lemma attempting_after v cb n :
  attempting cb n (run v (Connect cb :: failures n) initial).
Proof.
  induction n as [|n IH].
  - destruct v; repeat split.
  - rewrite failures_S.
    change (Connect cb :: failures n ++ failure n)
      with ((Connect cb :: failures n) ++ failure n).
    unfold run in *. rewrite fold_left_app. apply failure_round. exact IH.
Qed.

(** X22. The client never gives up: after [n] connection attempts that
    each fail (error event, close event, reconnection timer), attempt number
    [n + 1] is in progress on a new socket with the same callback, all the
    earlier sockets are closed, and no timer is left pending; there is no
    cap on [n] and the delay stays 3000 ms. *)
Theorem reconnects_without_limit (v : variant) (onMessage : callback) (n : nat) :
  let c := run v (Connect onMessage :: failures n) initial in
  connecting c = true
  /\ ws c = Some n
  /\ sockets c
     = repeat {| state := CLOSED; listener := onMessage; outbox := [] |} n
       ++ [{| state := CONNECTING; listener := onMessage; outbox := [] |}]
  /\ timers c = []
  /\ timers (run v (Connect onMessage :: failures n ++ [Error n; Close n])
               initial)
     = [{| handle := S n; delay := 3000; repeats := false;
           job := Reconnect onMessage |}].
Proof.
  intros c.
  destruct (attempting_after v onMessage n)
    as (Hw & Hc & Hp & Hq & Ht & Hn & Hs & Hf).
  fold c in Hw, Hc, Hp, Hq, Ht, Hn, Hs, Hf.
  split; [exact Hc|]. split; [exact Hw|]. split; [exact Hs|].
  split; [exact Ht|].
  change (Connect onMessage :: failures n ++ [Error n; Close n])
    with ((Connect onMessage :: failures n) ++ [Error n; Close n]).
  unfold run. rewrite fold_left_app. fold (run v (Connect onMessage :: failures n) initial).
  fold c. cbn [fold_left].
  assert (Hnth : nth_error (sockets c) n
                 = Some {| state := CONNECTING; listener := onMessage;
                           outbox := [] |}).
  { rewrite Hs. apply nth_error_repeat_snoc. }
  rewrite (step_Error v n _ c Hnth).
  rewrite (step_Close v n {| state := CONNECTING; listener := onMessage;
                             outbox := [] |})
    by (first [exact Hnth | discriminate]).
  cbn [listener].
  destruct v; simpl; rewrite Ht, Hp, Hq, Hn; reflexivity.
Qed.

(** ** A ping without answer *)

Lemma nth_error_update_nth {A : Type} (i : nat) (f : A -> A) (l : list A) :
  nth_error (update_nth i f l) i = option_map f (nth_error l i).
Proof.
  revert i. induction l as [|x l IH]; intros [|i]; simpl; auto.
Qed.

Lemma update_ws_proj f c :
  same_vars c (update_ws f c)
  /\ connecting (update_ws f c) = connecting c
  /\ pongTimeout (update_ws f c) = pongTimeout c
  /\ timers (update_ws f c) = timers c
  /\ next_handle (update_ws f c) = next_handle c
  /\ sockets (update_ws f c)
     = match ws c with
       | Some i => update_nth i f (sockets c)
       | None => sockets c
       end.
Proof.
  unfold same_vars, update_ws. destruct (ws c) eqn:E; simpl; rewrite ?E;
    repeat split.
Qed.

Lemma send_ping_proj c :
  ws_open c = true ->
  same_vars c (send_ping c)
  /\ connecting (send_ping c) = connecting c
  /\ pongTimeout (send_ping c) = Some (next_handle c)
  /\ timers (send_ping c)
     = timers c ++ [{| handle := next_handle c; delay := 5000;
                       repeats := false; job := PongMissing |}]
  /\ next_handle (send_ping c) = S (next_handle c)
  /\ sockets (send_ping c) = sockets (ws_send "ping" c).
Proof.
  intros H. unfold send_ping. rewrite H. unfold ws_send.
  destruct (update_ws_proj
              (fun s => {| state := state s; listener := listener s;
                           outbox := outbox s ++ ["ping"] |}) c)
    as ((Hw & Hp & Hf) & Hc & Hq & Ht & Hn & Hs).
  unfold same_vars. simpl. rewrite Hw, Hp, Hf, Hc, Ht, Hn. repeat split.
Qed.

Lemma pong_missing_proj c :
  same_vars c (pong_missing c)
  /\ connecting (pong_missing c) = connecting c
  /\ pongTimeout (pong_missing c) = pongTimeout c
  /\ timers (pong_missing c) = timers c
  /\ next_handle (pong_missing c) = next_handle c
  /\ sockets (pong_missing c) = sockets (ws_close c).
Proof.
  unfold pong_missing, ws_close.
  match goal with
  | |- context [update_ws ?f (log ?m c)] =>
      destruct (update_ws_proj f (log m c))
        as ((Hw & Hp & Hf) & Hc & Hq & Ht & Hn & Hs);
      destruct (update_ws_proj f c) as (_ & _ & _ & _ & _ & Hs')
  end.
  unfold same_vars. rewrite Hw, Hp, Hf, Hc, Hq, Ht, Hn, Hs, Hs'.
  repeat split.
Qed.

Lemma onclose_proj v cb c :
  same_vars c (onclose v cb c)
  /\ connecting (onclose v cb c) = false
  /\ sockets (onclose v cb c) = sockets c
  /\ timers (onclose v cb c)
     = match v with
       | Hall => cancel (pongTimeout c) (cancel (pingTimer c) (timers c))
                 ++ [reconnect_timer cb c]
       | Obs => cancel (pongTimeout c)
                  (cancel (pingTimer c) (timers c ++ [reconnect_timer cb c]))
       end.
Proof. unfold same_vars. destruct v; repeat split. Qed.

(** X23. A ping that is not answered ends in one reconnection.  From a
    state with socket [i] open and only the ping interval pending: when the
    interval fires, then the deadline it armed, then the close event of the
    socket, the socket has been sent "ping" and is closed, the flag is
    reset, and the one pending timer is a one-shot timer of 3000 ms for
    [connectWebSocket] with the socket's callback; when that timer fires, an
    attempt is in progress on a new socket with the same callback and no
    timer is pending. *)
Theorem unanswered_ping_reconnects
    (v : variant) (onMessage : callback) (i hp : nat) (c : client) :
  healthy onMessage i hp c ->
  let h := next_handle c in
  let c3 := run v (silence i hp h) c in
  let c4 := step v (Fire (S h)) c3 in
  timers c3 = [{| handle := S h; delay := 3000; repeats := false;
                  job := Reconnect onMessage |}]
  /\ connecting c3 = false
  /\ (exists out, nth_error (sockets c3) i
                  = Some {| state := CLOSED; listener := onMessage;
                            outbox := out ++ ["ping"] |})
  /\ timers c4 = []
  /\ connecting c4 = true
  /\ ws c4 = Some (List.length (sockets c))
  /\ nth_error (sockets c4) (List.length (sockets c))
     = Some {| state := CONNECTING; listener := onMessage; outbox := [] |}
  /\ forwarded c4 = forwarded c.
Proof.
  intros (Hws & (out & Hs) & Hconn & Hping & Htm & Hhp) h c3 c4.
  assert (Hne : (hp =? h)%nat = false) by (apply Nat.eqb_neq; unfold h; lia).
  assert (Hne' : (hp =? S h)%nat = false) by (apply Nat.eqb_neq; unfold h; lia).
  assert (Hne2 : (S h =? h)%nat = false) by (apply Nat.eqb_neq; lia).
  assert (Hne3 : (S h =? hp)%nat = false) by (apply Nat.eqb_neq; unfold h; lia).
  (* the interval fires *)
  set (c1 := send_ping c).
  assert (E1 : step v (Fire hp) c = c1).
  { rewrite (step_Fire v hp {| handle := hp; delay := 30000; repeats := true;
                               job := SendPing |})
      by (rewrite Htm; simpl; rewrite Nat.eqb_refl; reflexivity).
    reflexivity. }
  assert (Hopen : ws_open c = true).
  { unfold ws_open, ws_readyState. rewrite Hws, Hs. reflexivity. }
  destruct (send_ping_proj c Hopen)
    as ((Hw1 & Hp1 & Hf1) & Hc1 & Hq1 & Ht1 & Hn1 & Hs1).
  fold c1 in Hw1, Hp1, Hf1, Hc1, Hq1, Ht1, Hn1, Hs1. fold h in Hq1, Ht1, Hn1.
  rewrite Htm in Ht1.
  assert (Hs1' : nth_error (sockets c1) i
                 = Some {| state := OPEN; listener := onMessage;
                           outbox := out ++ ["ping"] |}).
  { rewrite Hs1. unfold ws_send.
    destruct (update_ws_proj
                (fun s => {| state := state s; listener := listener s;
                             outbox := outbox s ++ ["ping"] |}) c)
      as (_ & _ & _ & _ & _ & Hu).
    rewrite Hu, Hws, nth_error_update_nth, Hs. reflexivity. }
  (* the deadline fires *)
  set (c1' := clearTimer (Some h) c1).
  set (c2 := pong_missing c1').
  assert (E2 : step v (Fire h) c1 = c2).
  { rewrite (step_Fire v h {| handle := h; delay := 5000; repeats := false;
                              job := PongMissing |})
      by (rewrite Ht1; simpl; rewrite Hne, Nat.eqb_refl; reflexivity).
    reflexivity. }
  destruct (pong_missing_proj c1')
    as ((Hw2 & Hp2 & Hf2) & Hc2 & Hq2 & Ht2 & Hn2 & Hs2).
  fold c2 in Hw2, Hp2, Hf2, Hc2, Hq2, Ht2, Hn2, Hs2.
  assert (Ht2' : timers c2 = [{| handle := hp; delay := 30000; repeats := true;
                                 job := SendPing |}]).
  { rewrite Ht2. unfold c1'. simpl. rewrite Ht1. simpl.
    rewrite Hne, Nat.eqb_refl. reflexivity. }
  assert (Hs2' : nth_error (sockets c2) i
                 = Some {| state := CLOSING; listener := onMessage;
                           outbox := out ++ ["ping"] |}).
  { rewrite Hs2. unfold ws_close.
    match goal with
    | |- context [update_ws ?f c1'] =>
        destruct (update_ws_proj f c1') as (_ & _ & _ & _ & _ & Hu)
    end.
    rewrite Hu. change (ws c1') with (ws c1). change (sockets c1') with (sockets c1).
    rewrite Hw1, Hws, nth_error_update_nth, Hs1'. reflexivity. }
  (* the socket closes *)
  set (c2' := set_state i CLOSED c2).
  assert (E3 : step v (Close i) c2 = onclose v onMessage c2').
  { rewrite (step_Close v i _ c2 Hs2') by discriminate. reflexivity. }
  assert (Ec3 : c3 = onclose v onMessage c2').
  { unfold c3, run, silence. cbn [fold_left]. rewrite E1, E2, E3. reflexivity. }
  destruct (onclose_proj v onMessage c2') as ((Hw3 & Hp3 & Hf3) & Hc3 & Hs3 & Ht3).
  rewrite <- Ec3 in Hw3, Hp3, Hf3, Hc3, Hs3, Ht3.
  change (ws c2') with (ws c2) in Hw3.
  change (forwarded c2') with (forwarded c2) in Hf3.
  change (timers c2') with (timers c2) in Ht3.
  change (pingTimer c2') with (pingTimer c2) in Ht3.
  change (pongTimeout c2') with (pongTimeout c2) in Ht3.
  assert (Hn3 : reconnect_timer onMessage c2'
                = {| handle := S h; delay := 3000; repeats := false;
                     job := Reconnect onMessage |}).
  { unfold reconnect_timer. change (next_handle c2') with (next_handle c2).
    rewrite Hn2. change (next_handle c1') with (next_handle c1).
    rewrite Hn1. reflexivity. }
  assert (Ht3' : timers c3 = [{| handle := S h; delay := 3000; repeats := false;
                                 job := Reconnect onMessage |}]).
  { rewrite Ht3, Hn3, Ht2', Hp2, Hq2.
    change (pingTimer c1') with (pingTimer c1).
    change (pongTimeout c1') with (pongTimeout c1).
    rewrite Hp1, Hping, Hq1.
    destruct v; cbn [cancel filter app handle];
      rewrite ?Nat.eqb_refl, ?Hne, ?Hne2, ?Hne3; cbn [negb filter app handle];
      rewrite ?Nat.eqb_refl, ?Hne, ?Hne2, ?Hne3; reflexivity. }
  assert (Hs3' : nth_error (sockets c3) i
                 = Some {| state := CLOSED; listener := onMessage;
                           outbox := out ++ ["ping"] |}).
  { rewrite Hs3. unfold c2', set_state. simpl.
    rewrite nth_error_update_nth, Hs2'. reflexivity. }
  assert (Hl3 : List.length (sockets c3) = List.length (sockets c)).
  { rewrite Hs3. unfold c2', set_state. simpl. rewrite length_update_nth.
    rewrite Hs2. unfold ws_close.
    match goal with
    | |- context [update_ws ?f c1'] =>
        destruct (update_ws_proj f c1') as (_ & _ & _ & _ & _ & Hu)
    end.
    rewrite Hu. change (ws c1') with (ws c1).
    change (sockets c1') with (sockets c1).
    rewrite Hw1, Hws, length_update_nth, Hs1. unfold ws_send.
    destruct (update_ws_proj
                (fun s => {| state := state s; listener := listener s;
                             outbox := outbox s ++ ["ping"] |}) c)
      as (_ & _ & _ & _ & _ & Hu0).
    rewrite Hu0, Hws, length_update_nth. reflexivity. }
  split; [exact Ht3'|]. split; [exact Hc3|].
  split; [exists out; exact Hs3'|].
  (* the reconnection timer fires *)
  set (c3' := clearTimer (Some (S h)) c3).
  assert (E4 : c4 = connectWebSocket v onMessage c3').
  { unfold c4.
    rewrite (step_Fire v (S h) {| handle := S h; delay := 3000;
                                  repeats := false;
                                  job := Reconnect onMessage |})
      by (rewrite Ht3'; simpl; rewrite Nat.eqb_refl; reflexivity).
    reflexivity. }
  assert (Hbusy : busy v c3' = false).
  { unfold busy, ws_open, ws_readyState.
    change (connecting c3') with (connecting c3).
    change (ws c3') with (ws c3). change (sockets c3') with (sockets c3).
    rewrite Hc3, Hw3, Hw2. change (ws c1') with (ws c1).
    rewrite Hw1, Hws, Hs3'. destruct v; reflexivity. }
  rewrite E4. unfold connectWebSocket. rewrite Hbusy. simpl.
  rewrite Ht3', Hl3. simpl. rewrite Nat.eqb_refl. simpl.
  split; [reflexivity|]. split; [reflexivity|]. split; [reflexivity|].
  split.
  - rewrite <- Hl3. apply nth_error_snoc.
  - rewrite Hf3, Hf2. change (forwarded c1') with (forwarded c1).
    rewrite Hf1. reflexivity.
Qed.

(** The connected hall client: the interval has handle 1, the deadline 2. *)
Lemma unanswered_ping_reconnects_witness :
  healthy main 0 1 (connected Hall)
  /\ map job (timers (run Hall (silence 0 1 2) (connected Hall)))
     = [Reconnect main]
  /\ map state (sockets (run Hall (silence 0 1 2 ++ [Fire 3])
                           (connected Hall)))
     = [CLOSED; CONNECTING].
Proof.
  assert (H : healthy main 0 1 (connected Hall)).
  { unfold healthy. simpl. repeat split; try reflexivity; try lia.
    exists []. reflexivity. }
  destruct (unanswered_ping_reconnects Hall main 0 1 (connected Hall) H)
    as (Ht & _).
  split; [exact H|]. split.
  - change (next_handle (connected Hall)) with 2%nat in Ht.
    rewrite Ht. reflexivity.
  - reflexivity.
Defined.

End TransportFacts.
